(** * gridmeter: chunked nearest-neighbour distances

    A shallow embedding of [gridmeter/utils/calculate_distances.py] and of
    the numpy and scipy primitives it calls, followed by the properties of
    [calculate_distances] that the design document states.

    Arrays are two-dimensional and carry their declared shape, as numpy's
    do: a matrix with zero rows still has a column count.  Exceptions are
    explicit: every primitive that can raise returns a [result].

    Distances live in a type [D] with a total order; the floating-point
    values of [cdist] are one such type as long as no distance is NaN.
    Counts are natural numbers: [n_matches_per_treatment] is [None] or a
    count, [n_meters_per_chunk] is a count, and negative integers are not
    modelled.  [np.argpartition] enters as a parameter described by its
    documented contract, since numpy fixes no order among the entries it
    keeps. *)

From stdpp Require Import strings numbers sorting.
From stdpp Require Import list.


(** ** Exceptions *)

Inductive exn : Type :=
  | ValueError (msg : string)
  | IndexError (msg : string)
  | ConfigurationError (msg : string).
Arguments ValueError msg%_string.
Arguments IndexError msg%_string.
Arguments ConfigurationError msg%_string.

Inductive result (A : Type) : Type :=
  | Ok (a : A)
  | Raise (e : exn).
Arguments Ok {A} a.
Arguments Raise {A} e.

Global Instance result_ret : MRet result := λ A a, Ok a.
Global Instance result_bind : MBind result := λ A B k m,
  match m with
  | Ok a => k a
  | Raise e => Raise e
  end.

Definition is_Ok {A} (m : result A) : Prop := ∃ a, m = Ok a.

(** ** Two-dimensional arrays *)

Record ndarray (A : Type) : Type := NDArray {
  shape0 : nat;
  shape1 : nat;
  rows : list (list A)
}.
Arguments NDArray {A} shape0 shape1 rows.
Arguments shape0 {A} _.
Arguments shape1 {A} _.
Arguments rows {A} _.

(** The declared shape agrees with the data. *)
Definition wf_ndarray {A} (a : ndarray A) : Prop :=
  length (rows a) = shape0 a ∧ Forall (λ r, length r = shape1 a) (rows a).

(** ** numpy primitives *)

(** [r[js]] for one row: the entries of [r] at the positions [js]. *)
Definition sel {A} (r : list A) (js : list nat) : list A :=
  omap (λ j, r !! j) js.

(** [np.tile(v, (reps, 1))]. *)
Definition np_tile {A} (v : list A) (reps : nat) : ndarray A :=
  NDArray reps (length v) (replicate reps v).

(** [np.arange(n)]. *)
Definition np_arange (n : nat) : list nat := seq 0 n.

(** [a[:, :k]]. *)
Definition slice_cols {A} (a : ndarray A) (k : nat) : ndarray A :=
  NDArray (shape0 a) (min k (shape1 a)) (take k <$> rows a).

(** [a[np.arange(a.shape[0])[:, None], idx]]: row [i] of the result holds
    the entries of row [i] of [a] at the positions listed in row [i] of
    [idx].  The index array has as many rows as [a] wherever the source
    uses this form; other row counts are reported as numpy's broadcast
    failure.  A position outside the row raises [IndexError]. *)
Definition take_along {A} (a : ndarray A) (idx : ndarray nat) : result (ndarray A) :=
  if decide (shape0 idx = shape0 a) then
    if decide (Forall (Forall (λ j, j < shape1 a)) (rows idx)) then
      Ok (NDArray (shape0 idx) (shape1 idx) (zip_with sel (rows a) (rows idx)))
    else Raise (IndexError "index is out of bounds for axis 1")
  else Raise (IndexError "shape mismatch: indexing arrays could not be broadcast together").

(** [np.hstack(l)] on two-dimensional arrays: the rows are concatenated
    position by position.  An empty list is an error. *)
Definition hstack_rows {A} (n : nat) (l : list (ndarray A)) : list (list A) :=
  foldr (λ b acc, zip_with app (rows b) acc) (replicate n []) l.

Definition np_hstack {A} (l : list (ndarray A)) : result (ndarray A) :=
  match l with
  | [] => Raise (ValueError "need at least one array to concatenate")
  | a :: l' =>
      if decide (Forall (λ b, shape0 b = shape0 a) l') then
        Ok (NDArray (shape0 a) (sum_list (shape1 <$> l)) (hstack_rows (shape0 a) l))
      else Raise (ValueError "all the input array dimensions except for the concatenation axis must match exactly")
  end.

(** ** The chunk generator *)

(** Modelled from the spec: [gridmeter.utils.misc.chunks] is imported by
    the source and defined in another module of gridmeter.  The design
    document (4.1) gives its contract: contiguous chunks in original row
    order, each of [n] rows except possibly the last, every chunk carrying
    the range of row indices it covers and the sub-matrix; an empty matrix
    yields no chunk and a chunk size of zero is an error.  [chunks_from]
    cuts the rows [rs], the first of which has index [start]; [fuel]
    bounds the number of chunks and is the number of rows. *)
Fixpoint chunks_from {A} (fuel start d : nat) (rs : list (list A)) (n : nat)
    : list (list nat * ndarray A) :=
  match fuel with
  | 0 => []
  | S fuel' =>
      match rs with
      | [] => []
      | _ :: _ =>
          let c := take n rs in
          (seq start (length c), NDArray (length c) d c)
            :: chunks_from fuel' (start + length c) d (drop n rs) n
      end
  end.

(** Modelled from the spec: [chunks(a, n)], the generator the loop of
    [calculate_distances] iterates over, as the list of the chunks it
    yields. *)
Definition chunks {A} (a : ndarray A) (n : nat) : result (list (list nat * ndarray A)) :=
  if decide (n = 0) then Raise (ConfigurationError "chunk size must be positive")
  else Ok (chunks_from (length (rows a)) 0 (shape1 a) (rows a) n).

(** ** The engine *)

Section engine.
Context {F D : Type}.

(** The pairwise distance selected by [dist_metric]. *)
Variable metric : list F → list F → D.

(** [np.argpartition] on one row; its contract is stated with the
    theorems, the engine only calls it. *)
Variable argpartition : list D → nat → list nat.

(** [scipy.spatial.distance.cdist(XA, XB, metric)]. *)
Definition cdist (XA XB : ndarray F) : result (ndarray D) :=
  if decide (shape1 XA = shape1 XB) then
    Ok (NDArray (shape0 XA) (shape0 XB) ((λ a, metric a <$> rows XB) <$> rows XA))
  else Raise (ValueError "XA and XB must have the same number of columns (i.e. feature dimension.)").

(** [np.argpartition(a, kth, axis=1)]. *)
Definition np_argpartition (a : ndarray D) (kth : nat) : result (ndarray nat) :=
  if decide (kth < shape1 a) then
    Ok (NDArray (shape0 a) (shape1 a) ((λ r, argpartition r kth) <$> rows a))
  else Raise (ValueError "kth out of bounds").

(** Lines 8 to 13: the two target counts. *)
Definition n_smallest_of (n_matches_per_treatment : option nat) (ls_cp : ndarray F) : nat :=
  match n_matches_per_treatment with
  | None => shape0 ls_cp
  | Some k => if decide (shape0 ls_cp < k) then shape0 ls_cp else k
  end.

Definition n_chunk_smallest_of (n_matches_per_treatment : option nat)
    (n_meters_per_chunk : nat) : nat :=
  match n_matches_per_treatment with
  | None => n_meters_per_chunk
  | Some k => if decide (n_meters_per_chunk < k) then n_meters_per_chunk else k
  end.

(** Lines 18 to 28: the body of the loop, for one chunk.  It returns what
    the iteration appends to [cp_id_idx] and to [dist]. *)
Definition chunk_step (ls_t : ndarray F) (n_chunk_smallest : nat)
    (chunk : list nat * ndarray F) : result (ndarray nat * ndarray D) :=
  let '(idx_chunk, ls_cp_chunk) := chunk in
  chunked_dist ← cdist ls_t ls_cp_chunk;
  let chunked_cp_id_idx := np_tile idx_chunk (shape0 chunked_dist) in
  if decide (n_chunk_smallest < shape1 chunked_dist) then
    p ← np_argpartition chunked_dist n_chunk_smallest;
    let idx := slice_cols p n_chunk_smallest in
    ids ← take_along chunked_cp_id_idx idx;
    ds ← take_along chunked_dist idx;
    Ok (ids, ds)
  else Ok (chunked_cp_id_idx, chunked_dist).

(** Lines 15 to 28: the loop, threading the two lists it appends to. *)
Fixpoint chunk_loop (ls_t : ndarray F) (n_chunk_smallest : nat)
    (cs : list (list nat * ndarray F))
    (dist : list (ndarray D)) (cp_id_idx : list (ndarray nat))
    : result (list (ndarray D) * list (ndarray nat)) :=
  match cs with
  | [] => Ok (dist, cp_id_idx)
  | c :: cs' =>
      '(ids, ds) ← chunk_step ls_t n_chunk_smallest c;
      chunk_loop ls_t n_chunk_smallest cs' (dist ++ [ds]) (cp_id_idx ++ [ids])
  end.

(** Lines 8 to 31: everything up to and including the two [np.hstack]
    calls; the result is the pair of buffers [(cp_id_idx, dist)] that the
    final selection reads. *)
Definition accumulate (ls_t ls_cp : ndarray F)
    (n_matches_per_treatment : option nat) (n_meters_per_chunk : nat)
    : result (ndarray nat * ndarray D) :=
  let n_chunk_smallest := n_chunk_smallest_of n_matches_per_treatment n_meters_per_chunk in
  cs ← chunks ls_cp n_meters_per_chunk;
  '(dist, cp_id_idx) ← chunk_loop ls_t n_chunk_smallest cs [] [];
  dist ← np_hstack dist;
  cp_id_idx ← np_hstack cp_id_idx;
  Ok (cp_id_idx, dist).

(** Lines 33 to 41: the final selection. *)
Definition final_select (n_smallest : nat) (acc : ndarray nat * ndarray D)
    : result (ndarray nat * ndarray D) :=
  let '(cp_id_idx, dist) := acc in
  idx ← (if decide (n_smallest < shape1 dist) then
           p ← np_argpartition dist n_smallest;
           Ok (slice_cols p n_smallest)
         else Ok (np_tile (np_arange (shape1 dist)) (shape0 dist)));
  cp_id_idx ← take_along cp_id_idx idx;
  dist ← take_along dist idx;
  Ok (cp_id_idx, dist).

Definition calculate_distances (ls_t ls_cp : ndarray F)
    (n_matches_per_treatment : option nat) (n_meters_per_chunk : nat)
    : result (ndarray nat * ndarray D) :=
  let n_smallest := n_smallest_of n_matches_per_treatment ls_cp in
  acc ← accumulate ls_t ls_cp n_matches_per_treatment n_meters_per_chunk;
  final_select n_smallest acc.

End engine.

(** ** A reference partial selection

    numpy documents [argpartition] by a contract only.  For small [kth] its
    generic code path is a selection with swaps: for each position up to
    [kth], the first minimum of the remaining entries is swapped into
    place.  This instance is used to run the engine on concrete inputs. *)
Section selection.
Context {D : Type} (le : relation D) `{!RelDecision le}.

(** Position of the first strict minimum of [l], scanning from position
    [i] with the current best [best] at position [bi]. *)
Fixpoint argmin_from (best : D) (bi i : nat) (l : list (D * nat)) : nat :=
  match l with
  | [] => bi
  | x :: l' =>
      if decide (le best x.1) then argmin_from best bi (S i) l'
      else argmin_from x.1 i (S i) l'
  end.

Fixpoint dumb_select (steps : nat) (l : list (D * nat)) : list (D * nat) :=
  match steps, l with
  | S steps', x :: xs =>
      match argmin_from x.1 0 1 xs with
      | 0 => x :: dumb_select steps' xs
      | S m =>
          match xs !! m with
          | Some y => y :: dumb_select steps' (<[m := x]> xs)
          | None => x :: xs
          end
      end
  | _, _ => l
  end.

Definition argpartition_select (a : list D) (kth : nat) : list nat :=
  (dumb_select (S kth) (zip a (seq 0 (length a)))).*2.
(** After [steps] rounds the first [steps] entries are in ascending
    order and below everything that follows. *)
Definition prefix_min (steps : nat) (l : list (D * nat)) : Prop :=
  ∀ i j x y, i < steps → i ≤ j → l !! i = Some x → l !! j = Some y →
    le x.1 y.1.
End selection.

(** ** A second partial selection

    A full sort of the positions by their entries is a partial selection
    too: whatever [kth] is, the entry at position [kth] is where a sort
    puts it.  It is a second instance of the contract, with an order
    among equal entries of its own. *)
Section sorting_selection.
Context {D : Type} (le : relation D) `{!RelDecision le}.

(** Entries paired with their positions, compared by entry. *)
Definition le_key : relation (D * nat) := λ p q, le p.1 q.1.

Global Instance le_key_dec : RelDecision le_key.
Proof. intros p q. unfold le_key. apply _. Defined.

Definition argpartition_sort (a : list D) (kth : nat) : list nat :=
  (merge_sort le_key (zip a (seq 0 (length a)))).*2.
End sorting_selection.

(** ** Concrete inputs

    Integer feature vectors under scipy's [cityblock] metric, with the
    reference selection: the engine as it runs on the examples below. *)

Definition cityblock (u v : list Z) : Z :=
  foldr Z.add 0%Z (zip_with (λ x y, Z.abs (x - y)) u v).

(** Two treatment rows and a pool of four rows, two features each.  The
    distances are [1; 5; 7; 4] from the first treatment row and
    [6; 4; 0; 3] from the second. *)
Definition ex_t : ndarray Z := NDArray 2 2 [[0; 0]; [3; 4]]%Z.
Definition ex_cp : ndarray Z := NDArray 4 2 [[1; 0]; [0; 5]; [3; 4]; [2; 2]]%Z.

(** The first chunk of [ex_cp] for a chunk size of three. *)
Definition ex_chunk : list nat * ndarray Z :=
  ([0; 1; 2], NDArray 3 2 [[1; 0]; [0; 5]; [3; 4]]%Z).

(** One treatment row at the origin of a one-feature space. *)
Definition origin_t : ndarray Z := NDArray 1 1 [[0]]%Z.

(** A pool whose rows are not in order of distance from the origin. *)
Definition unordered_cp : ndarray Z := NDArray 2 1 [[5]; [1]]%Z.

(** A pool with two rows at the same distance from the origin. *)
Definition tied_cp : ndarray Z := NDArray 4 1 [[9]; [5]; [5]; [1]]%Z.

(** The two buffers the loop leaves for [ex_t] and [ex_cp] with [K = 2]
    and a chunk size of three: two candidates of the first chunk and the
    one row of the second. *)
Definition ex_ids_buffer : ndarray nat := NDArray 2 3 [[0; 1; 3]; [2; 1; 3]].
Definition ex_dist_buffer : ndarray Z := NDArray 2 3 [[1; 5; 4]; [0; 4; 3]]%Z.

(** A treatment matrix with no row, a pool with no row, and a treatment
    row with one feature too many for [ex_cp]. *)
Definition empty_t : ndarray Z := NDArray 0 2 [].
Definition empty_cp : ndarray Z := NDArray 0 2 [].
Definition wide_t : ndarray Z := NDArray 1 3 [[0; 0; 0]]%Z.


(** * Specification vocabulary *)

(** ** The [k] smallest elements of a list

    [smallest_of R k s all]: [s] holds [min k (length all)] elements of
    [all], and every element left out is at least as large as each of
    them.  Nothing is said about the order inside [s]. *)

Definition smallest_of {X} (R : relation X) (k : nat) (s all : list X) : Prop :=
  length s = min k (length all) ∧
  ∃ rest, all ≡ₚ s ++ rest ∧ ∀ x y, x ∈ s → y ∈ rest → R x y.

Section below_def.
Context {X : Type} (R : relation X) `{!RelDecision R}.

(** The elements strictly below [x]. *)
Definition below (x : X) (l : list X) : list X := filter (λ z, ¬ R x z) l.
End below_def.

(** ** The contract of [np.argpartition]

    numpy: the entry that ends at position [kth] is the one a full sort
    would put there; the entries before it are not larger and the entries
    after it are not smaller.  The result is a rearrangement of all the
    positions of the row.  [kth] must be a position of the row. *)

Definition argpartition_contract {D} (le : relation D)
    (argpartition : list D → nat → list nat) : Prop :=
  ∀ (a : list D) (kth : nat), kth < length a →
    argpartition a kth ≡ₚ seq 0 (length a) ∧
    ∀ i pi pk x y,
      argpartition a kth !! kth = Some pk → a !! pk = Some y →
      argpartition a kth !! i = Some pi → a !! pi = Some x →
      (i < kth → le x y) ∧ (kth < i → le y x).

(** ** Candidates and their order *)

(** A candidate is a pool row index with its distance; candidates are
    compared by distance alone. *)
Definition le_dist {D} (le : relation D) : relation (nat * D) :=
  λ p q, le p.2 q.2.

Global Instance le_dist_dec {D} (le : relation D) `{!RelDecision le} :
  RelDecision (le_dist le).
Proof. intros p q. unfold le_dist. apply _. Defined.

Global Instance le_dist_trans {D} (le : relation D) `{!Transitive le} :
  Transitive (le_dist le).
Proof. intros p q r. unfold le_dist. apply transitivity. Qed.

Global Instance le_dist_total {D} (le : relation D) `{!Total le} :
  Total (le_dist le).
Proof. intros p q. unfold le_dist. apply total, _. Qed.

(** What the design document compares the engine with: the distances from
    one treatment row to every pool row, each with its row index (the
    brute-force pairwise computation, before any sort). *)
Definition brute_force_row {F D} (metric : list F → list F → D)
    (ls_cp : ndarray F) (t : list F) : list (nat * D) :=
  zip (seq 0 (length (rows ls_cp))) (metric t <$> rows ls_cp).

(** A chunk as the loop expects it: as many row indices as rows, a
    rectangular sub-matrix of the pool's dimensionality. *)
Definition wf_chunk {A} (d : nat) (chunk : list nat * ndarray A) : Prop :=
  length chunk.1 = shape0 chunk.2 ∧ wf_ndarray chunk.2 ∧ shape1 chunk.2 = d.

(** The inputs the engine is specified for: two rectangular matrices of
    one feature dimensionality and a positive chunk size. *)
Definition valid_input {F} (ls_t ls_cp : ndarray F) (C : nat) : Prop :=
  wf_ndarray ls_t ∧ wf_ndarray ls_cp ∧ shape1 ls_t = shape1 ls_cp ∧ 0 < C.

(** ** The engine, one treatment row at a time

    Every array the engine builds has one row per treatment row, and that
    row depends on the treatment row alone.  The functions below give the
    row; the lemmas of the second part show that the engine's arrays
    consist of exactly these rows. *)

Section rows_of_engine.
Context {F D : Type}.
Variable metric : list F → list F → D.
Variable argpartition : list D → nat → list nat.

(** The candidates a chunk holds for the treatment row [t]. *)
Definition chunk_candidates (chunk : list nat * ndarray F) (t : list F)
    : list (nat * D) :=
  zip chunk.1 (metric t <$> rows chunk.2).

(** Number of candidates a chunk contributes per treatment row. *)
Definition chunk_width (M : nat) (chunk : list nat * ndarray F) : nat :=
  if decide (M < shape0 chunk.2) then M else shape0 chunk.2.

(** The row of [(cp_id_idx, dist)] a chunk contributes for [t]. *)
Definition chunk_row (M : nat) (chunk : list nat * ndarray F) (t : list F)
    : list nat * list D :=
  let d := metric t <$> rows chunk.2 in
  if decide (M < shape0 chunk.2) then
    let p := take M (argpartition d M) in (sel chunk.1 p, sel d p)
  else (chunk.1, d).

(** The row of the two buffers after [np.hstack]. *)
Definition acc_row (M : nat) (cs : list (list nat * ndarray F)) (t : list F)
    : list nat * list D :=
  (mjoin ((λ c, (chunk_row M c t).1) <$> cs),
   mjoin ((λ c, (chunk_row M c t).2) <$> cs)).

(** The row of the result, from the row of the two buffers. *)
Definition final_row (K W : nat) (acc : list nat * list D) : list nat * list D :=
  let p := if decide (K < W) then take K (argpartition acc.2 K)
           else np_arange W in
  (sel acc.1 p, sel acc.2 p).

Definition final_width (K W : nat) : nat := if decide (K < W) then K else W.

(** The chunks the loop iterates over (for a positive chunk size). *)
Definition pool_chunks (ls_cp : ndarray F) (C : nat) : list (list nat * ndarray F) :=
  chunks_from (length (rows ls_cp)) 0 (shape1 ls_cp) (rows ls_cp) C.

(** Width of the two buffers after [np.hstack]. *)
Definition acc_width (ls_cp : ndarray F) (K : option nat) (C : nat) : nat :=
  sum_list (chunk_width (n_chunk_smallest_of K C) <$> pool_chunks ls_cp C).

(** The row of the result for the treatment row [t]. *)
Definition row_result (ls_cp : ndarray F) (K : option nat) (C : nat) (t : list F)
    : list nat * list D :=
  final_row (n_smallest_of K ls_cp) (acc_width ls_cp K C)
    (acc_row (n_chunk_smallest_of K C) (pool_chunks ls_cp C) t).
End rows_of_engine.

(** Discharges [valid_input], [wf_ndarray] and [wf_chunk] on concrete
    arrays. *)
Ltac solve_valid :=
  repeat split; try (repeat constructor; done); simpl; try lia.

(** * Properties *)

(** ** Selecting positions of a row *)

Section sel_lemmas.
Context {A : Type}.
Implicit Types (r : list A) (js : list nat).

Lemma sel_app r js1 js2 : sel r (js1 ++ js2) = sel r js1 ++ sel r js2.
Proof. apply omap_app. Qed.

Lemma sel_Permutation r js1 js2 : js1 ≡ₚ js2 → sel r js1 ≡ₚ sel r js2.
Proof. intros H. unfold sel. by rewrite H. Qed.

Lemma sel_seq_from r1 r2 :
  sel (r1 ++ r2) (seq (length r1) (length r2)) = r2.
Proof.
  revert r1. induction r2 as [|x r2 IH]; intros r1; [done|].
  simpl. rewrite lookup_app_r, Nat.sub_diag by lia. simpl. f_equal.
  specialize (IH (r1 ++ [x])).
  rewrite length_app, <- app_assoc in IH. simpl in IH.
  by rewrite Nat.add_1_r in IH.
Qed.

Lemma sel_arange r : sel r (np_arange (length r)) = r.
Proof. apply (sel_seq_from [] r). Qed.

Lemma sel_arange_length r n : length r = n → sel r (np_arange n) = r.
Proof. intros <-. apply sel_arange. Qed.

Lemma elem_of_sel r js x :
  x ∈ sel r js ↔ ∃ j, j ∈ js ∧ r !! j = Some x.
Proof. apply list_elem_of_omap. Qed.

Lemma length_sel r js :
  Forall (λ j, j < length r) js → length (sel r js) = length js.
Proof.
  induction 1 as [|j js Hj _ IH]; [done|]. simpl.
  destruct (lookup_lt_is_Some_2 r j Hj) as [x ->]. simpl. by rewrite IH.
Qed.

Lemma sel_zip {B} r (s : list B) js :
  length r = length s → zip (sel r js) (sel s js) = sel (zip r s) js.
Proof.
  intros Hlen. induction js as [|j js IH]; [done|]. simpl.
  rewrite (lookup_zip_with pair r s j).
  destruct (r !! j) as [x|] eqn:Hx; simpl.
  - destruct (lookup_lt_is_Some_2 s j) as [y Hy].
    { rewrite <- Hlen. by eapply lookup_lt_Some. }
    rewrite Hy. simpl. f_equal. apply IH.
  - assert (s !! j = None) as ->.
    { apply lookup_ge_None. rewrite <- Hlen. by apply lookup_ge_None. }
    simpl. apply IH.
Qed.
End sel_lemmas.

Section smallest.
Context {X : Type} (R : relation X) `{!RelDecision R}.
Context `{!Transitive R, !Total R}.
Implicit Types (s all rest : list X).

Lemma smallest_of_all k all : length all ≤ k → smallest_of R k all all.
Proof.
  intros Hk. split; [lia|]. exists []. split.
  - by rewrite app_nil_r.
  - intros x y _ Hy. by apply elem_of_nil in Hy.
Qed.

Lemma smallest_of_Permutation k s all all' :
  all ≡ₚ all' → smallest_of R k s all → smallest_of R k s all'.
Proof.
  intros Hp (Hlen & rest & Hall & Hle). split.
  - by rewrite <- Hp.
  - exists rest. split; [by rewrite <- Hp|done].
Qed.

Lemma below_all x l : (∀ z, z ∈ l → ¬ R x z) → below R x l = l.
Proof.
  intros H. unfold below. induction l as [|z l IH]; [done|].
  rewrite filter_cons_True by (apply H; left).
  f_equal. apply IH. intros z' Hz'. apply H. by right.
Qed.

Lemma below_none x l : (∀ z, z ∈ l → R x z) → below R x l = [].
Proof.
  intros H. unfold below. induction l as [|z l IH]; [done|].
  rewrite filter_cons_False by (intros Hn; apply Hn, H; left).
  apply IH. intros z' Hz'. apply H. by right.
Qed.

(** Selecting from a sub-collection that kept enough small elements
    selects from the whole: if [kept] misses only elements that are at
    least as large as [k] kept ones, the [k] smallest of [kept] are the
    [k] smallest of [all]. *)
Lemma smallest_of_kept k s kept dropped all :
  all ≡ₚ kept ++ dropped →
  (∀ y, y ∈ dropped →
     ∃ part others, kept ≡ₚ part ++ others ∧ k ≤ length part ∧
       ∀ z, z ∈ part → R z y) →
  smallest_of R k s kept →
  smallest_of R k s all.
Proof.
  intros Hall Hdrop (Hlen & rest & Hkept & Hle).
  assert (length all = length kept + length dropped) as Hlall.
  { by rewrite Hall, length_app. }
  split.
  - destruct dropped as [|y dropped]; [simpl in *; lia|].
    destruct (Hdrop y) as (part & others & Hsub & Hk & _); [left|].
    apply Permutation_length in Hsub. rewrite length_app in Hsub. lia.
  - exists (rest ++ dropped). split.
    { by rewrite Hall, Hkept, app_assoc. }
    intros x y Hx Hy. apply elem_of_app in Hy as [Hy|Hy]; [by apply Hle|].
    destruct (decide (R x y)) as [|Hxy]; [done|exfalso].
    destruct (Hdrop y Hy) as (part & others & Hsub & Hk & Hpart).
    assert (below R x part = part) as Hbp.
    { apply below_all. intros z Hz Hxz. apply Hxy. trans z; [done|by apply Hpart]. }
    assert (length (below R x s) < length s) as Hbs.
    { apply (length_filter_lt _ _ x); [done|]. intros Hn. apply Hn.
      destruct (total R x x); done. }
    assert (length (below R x part) ≤ length (below R x kept)) as Hpk.
    { unfold below. rewrite Hsub, filter_app, length_app. lia. }
    assert (below R x kept ≡ₚ below R x s) as Hks.
    { unfold below. rewrite Hkept, filter_app.
      fold (below R x rest). rewrite (below_none x rest); [by rewrite app_nil_r|].
      intros z Hz. by apply Hle. }
    rewrite Hbp, Hks in Hpk. lia.
Qed.
End smallest.

Section smallest_sorted.
Context {X : Type} (R : relation X) `{!RelDecision R}.
Context `{!Transitive R, !Total R}.
Implicit Types (s all rest full : list X).

Lemma length_merge_sort l : length (merge_sort R l) = length l.
Proof. apply Permutation_length, merge_sort_Permutation. Qed.

(** A selection of the [k] smallest is the first [k] entries of some
    ascending sort of the whole list. *)
Lemma smallest_of_sorted_prefix k s all :
  smallest_of R k s all →
  ∃ full, full ≡ₚ all ∧ StronglySorted R full ∧ s ≡ₚ take k full.
Proof.
  intros (Hlen & rest & Hall & Hle).
  exists (merge_sort R s ++ merge_sort R rest). split_and!.
  - by rewrite !merge_sort_Permutation.
  - apply StronglySorted_app. split_and!.
    + intros x y Hx Hy. apply Hle.
      * by rewrite <- (merge_sort_Permutation R s).
      * by rewrite <- (merge_sort_Permutation R rest).
    + by apply StronglySorted_merge_sort.
    + by apply StronglySorted_merge_sort.
  - assert (length all = length s + length rest) as Hl.
    { by rewrite Hall, length_app. }
    destruct (decide (k ≤ length all)).
    + rewrite take_app_length' by (rewrite length_merge_sort; lia).
      by rewrite merge_sort_Permutation.
    + assert (rest = []) as -> by (apply nil_length_inv; lia).
      simpl. rewrite app_nil_r, take_ge by (rewrite length_merge_sort; lia).
      by rewrite merge_sort_Permutation.
Qed.

Lemma smallest_of_take_sorted k full :
  StronglySorted R full → smallest_of R k (take k full) full.
Proof.
  intros Hs. split; [apply length_take|].
  exists (drop k full). split; [by rewrite take_drop|].
  rewrite <- (take_drop k full) in Hs.
  apply StronglySorted_app in Hs as (H & _ & _). done.
Qed.

(** With an antisymmetric order the [k] smallest form one multiset. *)
Lemma smallest_of_unique `{!AntiSymm (=) R} k s1 s2 all :
  smallest_of R k s1 all → smallest_of R k s2 all → s1 ≡ₚ s2.
Proof.
  intros (Hlen1 & rest1 & Hall1 & Hle1) (Hlen2 & rest2 & Hall2 & Hle2).
  assert (∀ s rest, (∀ x y, x ∈ s → y ∈ rest → R x y) →
    StronglySorted R (merge_sort R s ++ merge_sort R rest)) as Hsorted.
  { intros s rest Hle. apply StronglySorted_app. split_and!.
    - intros x y Hx Hy. apply Hle.
      + by rewrite <- (merge_sort_Permutation R s).
      + by rewrite <- (merge_sort_Permutation R rest).
    - by apply StronglySorted_merge_sort.
    - by apply StronglySorted_merge_sort. }
  assert (merge_sort R s1 ++ merge_sort R rest1
          = merge_sort R s2 ++ merge_sort R rest2) as Heq.
  { apply (StronglySorted_unique R); [by apply Hsorted..|].
    by rewrite !merge_sort_Permutation, <- Hall1, <- Hall2. }
  apply app_inj_1 in Heq as [Heq _].
  - by rewrite <- (merge_sort_Permutation R s1), Heq, merge_sort_Permutation.
  - rewrite !length_merge_sort. lia.
Qed.
End smallest_sorted.

Section partition.
Context {D : Type} (le : relation D) `{!Transitive le}.
Variable argpartition : list D → nat → list nat.
Hypothesis Hcontract : argpartition_contract le argpartition.

Lemma argpartition_Permutation a kth :
  kth < length a → argpartition a kth ≡ₚ seq 0 (length a).
Proof. intros H. by apply Hcontract. Qed.

Lemma argpartition_length a kth :
  kth < length a → length (argpartition a kth) = length a.
Proof.
  intros H. by rewrite (argpartition_Permutation a kth H), length_seq.
Qed.

Lemma argpartition_bounds a kth :
  kth < length a → Forall (λ j, j < length a) (argpartition a kth).
Proof.
  intros H. rewrite (argpartition_Permutation a kth H).
  apply Forall_seq. intros. lia.
Qed.

(** Every entry kept by [[:kth]] is below every entry left out. *)
Lemma argpartition_split a kth pi pj x y :
  kth < length a →
  pi ∈ take kth (argpartition a kth) → pj ∈ drop kth (argpartition a kth) →
  a !! pi = Some x → a !! pj = Some y → le x y.
Proof.
  intros Hk Hi Hj Hx Hy.
  destruct (Hcontract a kth Hk) as [_ Hpiv].
  apply list_elem_of_lookup in Hi as [i Hi], Hj as [j Hj].
  rewrite lookup_take_Some in Hi. destruct Hi as [Hi Hik].
  rewrite lookup_drop in Hj.
  destruct (lookup_lt_is_Some_2 (argpartition a kth) kth) as [pk Hpk].
  { rewrite argpartition_length; lia. }
  destruct (lookup_lt_is_Some_2 a pk) as [z Hz].
  { eapply (Forall_lookup_1 _ _ _ _ (argpartition_bounds a kth Hk) Hpk). }
  destruct j as [|j].
  - rewrite Nat.add_0_r in Hj.
    assert (pj = pk) as -> by congruence.
    assert (y = z) as -> by congruence.
    by apply (Hpiv i pi pk x z).
  - trans z.
    + by apply (Hpiv i pi pk x z).
    + apply (Hpiv (kth + S j) pj pk y z); [done..|lia].
Qed.

(** [sel _ (argpartition d kth)[:kth]] selects the [kth] smallest of a
    list of candidates keyed by the distances [d]. *)
Lemma sel_argpartition_smallest {I} (ids : list I) (d : list D) kth :
  length ids = length d → kth < length d →
  smallest_of (λ p q, le p.2 q.2) kth
    (zip (sel ids (take kth (argpartition d kth)))
         (sel d (take kth (argpartition d kth))))
    (zip ids d).
Proof.
  intros Hlen Hk. rewrite sel_zip by done.
  pose proof (argpartition_bounds d kth Hk) as Hb.
  pose proof (argpartition_length d kth Hk) as Hl.
  assert (length (zip ids d) = length d) as Hlz.
  { rewrite length_zip. lia. }
  split.
  - rewrite length_sel.
    + rewrite length_take, Hlz. lia.
    + rewrite Hlz. by apply Forall_take.
  - exists (sel (zip ids d) (drop kth (argpartition d kth))). split.
    + rewrite <- sel_app, take_drop.
      rewrite (sel_Permutation _ _ _ (argpartition_Permutation d kth Hk)).
      rewrite <- Hlz. pose proof (sel_arange (zip ids d)) as Ha.
      unfold np_arange in Ha. by rewrite Ha.
    + intros [i x] [j y] Hx Hy. simpl.
      apply elem_of_sel in Hx as (pi & Hpi & Hx), Hy as (pj & Hpj & Hy).
      apply lookup_zip_with_Some in Hx as (? & ? & ? & _ & Hx).
      apply lookup_zip_with_Some in Hy as (? & ? & ? & _ & Hy).
      simplify_eq. by eapply argpartition_split.
Qed.
End partition.

(** ** Arrays built row by row *)

Lemma zip_with_fmap_same {A B C X} (h : B → C → X) (f : A → B) (g : A → C)
    (ts : list A) :
  zip_with h (f <$> ts) (g <$> ts) = (λ t, h (f t) (g t)) <$> ts.
Proof. induction ts as [|t ts IH]; [done|]. csimpl. by rewrite IH. Qed.

Lemma replicate_length_fmap {A B} (ts : list A) (x : B) :
  replicate (length ts) x = (λ _, x) <$> ts.
Proof. induction ts as [|t ts IH]; [done|]. csimpl. by rewrite IH. Qed.

Lemma hstack_rows_fmap {A B C} (f : C → A → list B) (w : C → nat)
    (ts : list A) (cs : list C) :
  hstack_rows (length ts) ((λ c, NDArray (length ts) (w c) (f c <$> ts)) <$> cs)
  = (λ t, mjoin ((λ c, f c t) <$> cs)) <$> ts.
Proof.
  unfold hstack_rows. induction cs as [|c cs IH]; csimpl.
  - apply replicate_length_fmap.
  - rewrite IH. apply zip_with_fmap_same.
Qed.

Lemma np_hstack_fmap {A B C} (f : C → A → list B) (w : C → nat)
    (ts : list A) (cs : list C) :
  cs ≠ [] →
  np_hstack ((λ c, NDArray (length ts) (w c) (f c <$> ts)) <$> cs)
  = Ok (NDArray (length ts) (sum_list (w <$> cs))
          ((λ t, mjoin ((λ c, f c t) <$> cs)) <$> ts)).
Proof.
  intros Hcs. destruct cs as [|c cs]; [done|].
  pose proof (hstack_rows_fmap f w ts (c :: cs)) as Hrows.
  unfold np_hstack. simpl in *. rewrite decide_True.
  - rewrite Hrows. do 2 f_equal. f_equal.
    rewrite <- list_fmap_compose. done.
  - apply Forall_fmap, Forall_forall. done.
Qed.

Lemma take_along_fmap {A B} (f : A → list B) (g : A → list nat)
    (ts : list A) (n w k : nat) :
  (∀ t, t ∈ ts → Forall (λ j, j < w) (g t)) →
  take_along (NDArray n w (f <$> ts)) (NDArray n k (g <$> ts))
  = Ok (NDArray n k ((λ t, sel (f t) (g t)) <$> ts)).
Proof.
  intros Hb. unfold take_along. simpl.
  rewrite decide_True by done. rewrite decide_True.
  - by rewrite zip_with_fmap_same.
  - apply Forall_fmap, Forall_forall. intros t Ht. by apply Hb.
Qed.

(** ** The chunk generator covers the pool *)

Section chunks_lemmas.
Context {A : Type}.
Implicit Types (rs : list (list A)).

Lemma chunks_from_wf fuel start d rs n :
  Forall (λ r, length r = d) rs →
  Forall (λ c, wf_chunk d c ∧ shape0 c.2 ≤ n) (chunks_from fuel start d rs n).
Proof.
  revert start rs. induction fuel as [|fuel IH]; intros start rs Hrs; [done|].
  destruct rs as [|r rs]; [done|]. cbn [chunks_from].
  constructor.
  - unfold wf_chunk, wf_ndarray. cbn [fst snd shape0 shape1 rows].
    rewrite length_seq, length_take. split_and!; try done; try lia.
    by apply Forall_take.
  - apply IH. by apply Forall_drop.
Qed.

Lemma chunks_from_indices fuel start d rs n :
  0 < n → length rs ≤ fuel →
  mjoin ((λ c, c.1) <$> chunks_from fuel start d rs n) = seq start (length rs).
Proof.
  intros Hn. revert start rs.
  induction fuel as [|fuel IH]; intros start rs Hf.
  { destruct rs; [done|simpl in *; lia]. }
  destruct rs as [|r rs]; [done|]. cbn [chunks_from fst]. csimpl.
  change (start :: seq (S start) (length rs))
    with (seq start (length (r :: rs))).
  rewrite IH.
  - rewrite length_drop, length_take.
    rewrite <- seq_app. f_equal. lia.
  - rewrite length_drop. simpl in *. lia.
Qed.

Lemma chunks_from_rows fuel start d rs n :
  0 < n → length rs ≤ fuel →
  mjoin ((λ c, rows c.2) <$> chunks_from fuel start d rs n) = rs.
Proof.
  intros Hn. revert start rs.
  induction fuel as [|fuel IH]; intros start rs Hf.
  { destruct rs; [done|simpl in *; lia]. }
  destruct rs as [|r rs]; [done|].
  cbn [chunks_from]. csimpl.
  rewrite IH.
  - apply take_drop.
  - rewrite length_drop. simpl in *. lia.
Qed.

Lemma chunks_from_nonempty fuel start d rs n :
  rs ≠ [] → 0 < fuel → chunks_from fuel start d rs n ≠ [].
Proof. destruct fuel, rs; simpl; intros; (done || lia). Qed.
End chunks_lemmas.

(** ** The engine's arrays, row by row *)

Section rowwise.
Context {F D : Type}.
Variable metric : list F → list F → D.
Variable argpartition : list D → nat → list nat.

Context (le : relation D) `{!Transitive le}.
Hypothesis Hcontract : argpartition_contract le argpartition.

Lemma chunk_row_length M chunk t :
  length chunk.1 = shape0 chunk.2 → length (rows chunk.2) = shape0 chunk.2 →
  length (chunk_row metric argpartition M chunk t).1 = chunk_width M chunk ∧
  length (chunk_row metric argpartition M chunk t).2 = chunk_width M chunk.
Proof.
  intros Hidx Hrows. unfold chunk_row, chunk_width.
  assert (length (metric t <$> rows chunk.2) = shape0 chunk.2) as Hd.
  { by rewrite length_fmap. }
  case_decide as HM; cbn [fst snd]; [|done].
  pose proof (argpartition_bounds le argpartition Hcontract
                (metric t <$> rows chunk.2) M) as Hb.
  pose proof (argpartition_length le argpartition Hcontract
                (metric t <$> rows chunk.2) M) as Hl.
  rewrite Hd in Hb, Hl. specialize (Hb HM). specialize (Hl HM).
  rewrite !length_sel, length_take.
  - lia.
  - rewrite Hd. by apply Forall_take.
  - rewrite Hidx. by apply Forall_take.
Qed.

Lemma chunk_step_rowwise ls_t M chunk :
  wf_ndarray ls_t → wf_chunk (shape1 ls_t) chunk →
  chunk_step metric argpartition ls_t M chunk
  = Ok (NDArray (shape0 ls_t) (chunk_width M chunk)
          ((λ t, (chunk_row metric argpartition M chunk t).1) <$> rows ls_t),
        NDArray (shape0 ls_t) (chunk_width M chunk)
          ((λ t, (chunk_row metric argpartition M chunk t).2) <$> rows ls_t)).
Proof.
  intros [Hn _] (Hidx & [Hrows _] & Hd).
  destruct chunk as [idx m]. cbn [fst snd] in *.
  unfold chunk_step, cdist, chunk_row, chunk_width. cbn [fst snd].
  rewrite decide_True by done. cbn [mbind result_bind shape0 shape1 rows].
  case_decide as HM.
  - unfold np_argpartition. cbn [shape0 shape1 rows].
    rewrite decide_True by done.
    cbn [mbind result_bind]. unfold slice_cols, np_tile.
    cbn [shape0 shape1 rows].
    rewrite <- Hn, replicate_length_fmap, <- !list_fmap_compose.
    assert (∀ t, t ∈ rows ls_t →
      Forall (λ j, j < shape0 m)
        ((take M ∘ (λ r, argpartition r M) ∘ (λ a, metric a <$> rows m)) t))
      as Hb.
    { intros t _. unfold compose. apply Forall_take.
      pose proof (argpartition_bounds le argpartition Hcontract
                    (metric t <$> rows m) M) as Hb.
      rewrite length_fmap, Hrows in Hb. by apply Hb. }
    rewrite Hidx, (take_along_fmap (λ a, metric a <$> rows m)) by done.
    rewrite (take_along_fmap (λ _, idx)) by done.
    cbn [mbind result_bind]. rewrite Nat.min_l by lia. done.
  - unfold np_tile. cbn [shape0 shape1 rows].
    by rewrite <- Hn, replicate_length_fmap, Hidx.
Qed.

Lemma chunk_loop_rowwise ls_t M cs dist ids :
  wf_ndarray ls_t → Forall (wf_chunk (shape1 ls_t)) cs →
  chunk_loop metric argpartition ls_t M cs dist ids
  = Ok (dist ++ ((λ c, NDArray (shape0 ls_t) (chunk_width M c)
                         ((λ t, (chunk_row metric argpartition M c t).2) <$> rows ls_t)) <$> cs),
        ids ++ ((λ c, NDArray (shape0 ls_t) (chunk_width M c)
                        ((λ t, (chunk_row metric argpartition M c t).1) <$> rows ls_t)) <$> cs)).
Proof.
  intros Ht Hcs. revert dist ids.
  induction Hcs as [|c cs Hc _ IH]; intros dist ids.
  - simpl. by rewrite !app_nil_r.
  - cbn [chunk_loop]. rewrite chunk_step_rowwise by done.
    cbn [mbind result_bind]. rewrite IH. csimpl.
    by rewrite <- !app_assoc.
Qed.
End rowwise.

Section engine_rows.
Context {F D : Type}.
Variable metric : list F → list F → D.
Variable argpartition : list D → nat → list nat.
Context (le : relation D) `{!Transitive le}.
Hypothesis Hcontract : argpartition_contract le argpartition.

Lemma chunks_pool (ls_cp : ndarray F) C :
  0 < C → chunks ls_cp C = Ok (pool_chunks ls_cp C).
Proof. intros HC. unfold chunks. rewrite decide_False by lia. done. Qed.

Lemma pool_chunks_wf (ls_cp : ndarray F) C :
  wf_ndarray ls_cp →
  Forall (λ c, wf_chunk (shape1 ls_cp) c ∧ shape0 c.2 ≤ C) (pool_chunks ls_cp C).
Proof. intros [_ Hrows]. by apply chunks_from_wf. Qed.

Lemma accumulate_rowwise ls_t ls_cp K C :
  wf_ndarray ls_t → wf_ndarray ls_cp → shape1 ls_t = shape1 ls_cp →
  0 < C → 0 < shape0 ls_cp →
  accumulate metric argpartition ls_t ls_cp K C
  = Ok (NDArray (shape0 ls_t) (acc_width ls_cp K C)
          ((λ t, (acc_row metric argpartition (n_chunk_smallest_of K C)
                    (pool_chunks ls_cp C) t).1) <$> rows ls_t),
        NDArray (shape0 ls_t) (acc_width ls_cp K C)
          ((λ t, (acc_row metric argpartition (n_chunk_smallest_of K C)
                    (pool_chunks ls_cp C) t).2) <$> rows ls_t)).
Proof.
  intros Ht Hcp Hd HC Hn. unfold accumulate.
  rewrite chunks_pool by done. cbn [mbind result_bind].
  rewrite (chunk_loop_rowwise metric argpartition le Hcontract); [|done|].
  2:{ rewrite Hd. eapply Forall_impl; [by apply pool_chunks_wf|].
      by intros c [? _]. }
  cbn [mbind result_bind app].
  assert (pool_chunks ls_cp C ≠ []) as Hne.
  { apply chunks_from_nonempty.
    - destruct Hcp as [Hl _]. destruct (rows ls_cp); [simpl in *; lia|done].
    - destruct Hcp as [Hl _]. lia. }
  destruct Ht as [Hlt _]. rewrite <- Hlt.
  rewrite !np_hstack_fmap by done. done.
Qed.

Lemma final_select_rowwise (fI : list F → list nat) (fD : list F → list D)
    (ts : list (list F)) (K W : nat) :
  (∀ t, t ∈ ts → length (fD t) = W) →
  final_select argpartition K
    (NDArray (length ts) W (fI <$> ts), NDArray (length ts) W (fD <$> ts))
  = Ok (NDArray (length ts) (final_width K W)
          ((λ t, (final_row argpartition K W (fI t, fD t)).1) <$> ts),
        NDArray (length ts) (final_width K W)
          ((λ t, (final_row argpartition K W (fI t, fD t)).2) <$> ts)).
Proof.
  intros HW. unfold final_select, final_row, final_width.
  cbn [shape0 shape1 rows fst snd]. case_decide as HK.
  - unfold np_argpartition. cbn [shape0 shape1 rows].
    rewrite decide_True by done. cbn [mbind result_bind].
    unfold slice_cols. cbn [shape0 shape1 rows].
    rewrite <- !list_fmap_compose.
    assert (∀ t, t ∈ ts →
      Forall (λ j, j < W) ((take K ∘ (λ r, argpartition r K) ∘ fD) t)) as Hb.
    { intros t Ht. unfold compose. apply Forall_take.
      pose proof (argpartition_bounds le argpartition Hcontract (fD t) K) as Hb.
      rewrite (HW t Ht) in Hb. by apply Hb. }
    rewrite (take_along_fmap fD), (take_along_fmap fI) by done.
    cbn [mbind result_bind]. rewrite Nat.min_l by lia. done.
  - cbn [mbind result_bind]. unfold np_tile.
    rewrite replicate_length_fmap.
    assert (length (np_arange W) = W) as -> by apply length_seq.
    assert (∀ t, t ∈ ts → Forall (λ j, j < W) ((λ _, np_arange W) t)) as Hb.
    { intros t _. apply Forall_seq. lia. }
    rewrite (take_along_fmap fD), (take_along_fmap fI) by done.
    done.
Qed.

Lemma acc_row_length ls_cp K C t :
  wf_ndarray ls_cp →
  length (acc_row metric argpartition (n_chunk_smallest_of K C)
            (pool_chunks ls_cp C) t).1 = acc_width ls_cp K C ∧
  length (acc_row metric argpartition (n_chunk_smallest_of K C)
            (pool_chunks ls_cp C) t).2 = acc_width ls_cp K C.
Proof.
  intros Hcp. unfold acc_row, acc_width. cbn [fst snd].
  pose proof (pool_chunks_wf ls_cp C Hcp) as Hwf.
  induction Hwf as [|c cs [(Hidx & [Hrows _] & _) _] _ [IH1 IH2]]; [done|].
  csimpl. rewrite !length_app, IH1, IH2.
  destruct (chunk_row_length metric argpartition le Hcontract
              (n_chunk_smallest_of K C) c t Hidx Hrows) as [-> ->].
  done.
Qed.

(** The engine returns, and its two arrays consist of the rows
    [row_result]. *)
Lemma calculate_distances_rowwise ls_t ls_cp K C :
  wf_ndarray ls_t → wf_ndarray ls_cp → shape1 ls_t = shape1 ls_cp →
  0 < C → 0 < shape0 ls_cp →
  calculate_distances metric argpartition ls_t ls_cp K C
  = Ok (NDArray (shape0 ls_t)
          (final_width (n_smallest_of K ls_cp) (acc_width ls_cp K C))
          ((λ t, (row_result metric argpartition ls_cp K C t).1) <$> rows ls_t),
        NDArray (shape0 ls_t)
          (final_width (n_smallest_of K ls_cp) (acc_width ls_cp K C))
          ((λ t, (row_result metric argpartition ls_cp K C t).2) <$> rows ls_t)).
Proof.
  intros Ht Hcp Hd HC Hn. unfold calculate_distances.
  rewrite accumulate_rowwise by done. cbn [mbind result_bind].
  destruct Ht as [Hlt _]. rewrite <- Hlt.
  rewrite final_select_rowwise; [done|].
  intros t _. by apply acc_row_length.
Qed.
End engine_rows.

Section merge.
Context {X : Type} (R : relation X).

(** Chunk by chunk: what each chunk keeps, and what it held. *)
Lemma concat_kept_dropped (k M : nat) (parts : list (list X * list X)) :
  Forall (λ p, smallest_of R M p.1 p.2 ∧
               (length p.1 < length p.2 → k ≤ length p.1)) parts →
  ∃ dropped,
    mjoin (snd <$> parts) ≡ₚ mjoin (fst <$> parts) ++ dropped ∧
    ∀ y, y ∈ dropped →
      ∃ part others, mjoin (fst <$> parts) ≡ₚ part ++ others ∧
        k ≤ length part ∧ ∀ z, z ∈ part → R z y.
Proof.
  induction 1 as [|[kept all] parts [(Hlen & rest & Hall & Hle) Hk] _
                   (dropped & Hperm & Hdrop)].
  { exists []. split; [done|]. intros y Hy. by apply elem_of_nil in Hy. }
  cbn [fst snd] in *. exists (rest ++ dropped). csimpl. split.
  - rewrite Hall, Hperm. rewrite <- !app_assoc. f_equiv.
    rewrite !app_assoc. f_equiv. apply Permutation_app_comm.
  - intros y Hy. apply elem_of_app in Hy as [Hy|Hy].
    + exists kept, (mjoin (fst <$> parts)). split_and!; [done| |].
      * apply Hk. apply Permutation_length in Hall.
        rewrite length_app in Hall.
        destruct rest; [by apply elem_of_nil in Hy|simpl in *; lia].
      * intros z Hz. by apply Hle.
    + destruct (Hdrop y Hy) as (part & others & Hp & Hkp & Hz).
      exists part, (kept ++ others). split_and!; [|done..].
      rewrite Hp, !app_assoc. f_equiv. apply Permutation_app_comm.
Qed.
End merge.

Lemma zip_concat {A B C} (f : C → list A) (g : C → list B) (cs : list C) :
  Forall (λ c, length (f c) = length (g c)) cs →
  zip (mjoin (f <$> cs)) (mjoin (g <$> cs))
  = mjoin ((λ c, zip (f c) (g c)) <$> cs).
Proof.
  induction 1 as [|c cs Hc _ IH]; [done|]. csimpl.
  by rewrite zip_with_app, IH.
Qed.

Lemma fmap_concat_fmap {A B C} (h : A → B) (f : C → list A) (cs : list C) :
  mjoin ((λ c, h <$> f c) <$> cs) = h <$> mjoin (f <$> cs).
Proof.
  induction cs as [|c cs IH]; [done|]. csimpl. by rewrite fmap_app, IH.
Qed.

Section row_props.
Context {F D : Type}.
Variable metric : list F → list F → D.
Variable argpartition : list D → nat → list nat.
Context (le : relation D) `{!RelDecision le, !Transitive le, !Total le}.
Hypothesis Hcontract : argpartition_contract le argpartition.

Lemma n_smallest_le_chunk (K : option nat) (C : nat) (ls_cp : ndarray F) :
  n_chunk_smallest_of K C < C →
  n_smallest_of K ls_cp ≤ n_chunk_smallest_of K C.
Proof.
  unfold n_chunk_smallest_of, n_smallest_of.
  destruct K as [k|]; repeat case_decide; lia.
Qed.

Lemma n_smallest_min (k : nat) (ls_cp : ndarray F) :
  n_smallest_of (Some k) ls_cp = min k (shape0 ls_cp).
Proof. unfold n_smallest_of. case_decide; lia. Qed.

Lemma n_chunk_smallest_min (k C : nat) :
  n_chunk_smallest_of (Some k) C = min k C.
Proof. unfold n_chunk_smallest_of. case_decide; lia. Qed.

Lemma n_smallest_le (K : option nat) (ls_cp : ndarray F) :
  n_smallest_of K ls_cp ≤ shape0 ls_cp.
Proof. unfold n_smallest_of. destruct K; repeat case_decide; lia. Qed.

Lemma chunk_row_smallest M chunk t :
  length chunk.1 = shape0 chunk.2 → length (rows chunk.2) = shape0 chunk.2 →
  smallest_of (le_dist le) M
    (zip (chunk_row metric argpartition M chunk t).1
         (chunk_row metric argpartition M chunk t).2)
    (chunk_candidates metric chunk t).
Proof.
  intros Hidx Hrows. unfold chunk_row, chunk_candidates.
  assert (length (metric t <$> rows chunk.2) = shape0 chunk.2) as Hd.
  { by rewrite length_fmap. }
  case_decide as HM; cbn [fst snd].
  - apply (sel_argpartition_smallest le argpartition Hcontract).
    + by rewrite Hd.
    + by rewrite Hd.
  - apply smallest_of_all. rewrite length_zip, Hidx, Hd. lia.
Qed.

Lemma brute_force_chunks ls_cp C t :
  0 < C →
  Forall (λ c, length c.1 = length (rows c.2)) (pool_chunks ls_cp C) →
  brute_force_row metric ls_cp t
  = mjoin ((λ c, chunk_candidates metric c t) <$> pool_chunks ls_cp C).
Proof.
  intros HC Hwf. unfold brute_force_row, chunk_candidates.
  rewrite <- zip_concat.
  - rewrite (fmap_concat_fmap (metric t) (λ c, rows c.2)).
    unfold pool_chunks.
    by rewrite chunks_from_indices, chunks_from_rows.
  - eapply Forall_impl; [done|]. intros c Hc. simpl.
    by rewrite length_fmap.
Qed.

Lemma final_row_smallest K W (acc : list nat * list D) :
  length acc.1 = W → length acc.2 = W →
  length (final_row argpartition K W acc).1 = final_width K W ∧
  length (final_row argpartition K W acc).2 = final_width K W ∧
  smallest_of (le_dist le) K
    (zip (final_row argpartition K W acc).1 (final_row argpartition K W acc).2)
    (zip acc.1 acc.2).
Proof.
  intros H1 H2. destruct acc as [ids d]. cbn [fst snd] in *. subst W.
  unfold final_row, final_width. cbn [fst snd].
  case_decide as HK.
  - rewrite <- H2 in HK.
    pose proof (argpartition_bounds le argpartition Hcontract d K HK) as Hb.
    pose proof (argpartition_length le argpartition Hcontract d K HK) as Hl.
    rewrite !length_sel, length_take.
    + split_and!; [lia..|].
      apply (sel_argpartition_smallest le argpartition Hcontract); lia.
    + by apply Forall_take.
    + rewrite <- H2. by apply Forall_take.
  - rewrite sel_arange. rewrite <- H2, sel_arange. split_and!; [lia..|].
    apply smallest_of_all. rewrite length_zip. lia.
Qed.

Lemma length_brute_force_row (ls_cp : ndarray F) t :
  length (brute_force_row metric ls_cp t) = length (rows ls_cp).
Proof.
  unfold brute_force_row. rewrite length_zip, length_seq, length_fmap. lia.
Qed.

(** The row of the result holds the [n_smallest] nearest candidates of
    the whole pool. *)
Lemma row_result_smallest ls_cp K C t :
  wf_ndarray ls_cp → 0 < C →
  length (row_result metric argpartition ls_cp K C t).1 = n_smallest_of K ls_cp ∧
  length (row_result metric argpartition ls_cp K C t).2 = n_smallest_of K ls_cp ∧
  smallest_of (le_dist le) (n_smallest_of K ls_cp)
    (zip (row_result metric argpartition ls_cp K C t).1
         (row_result metric argpartition ls_cp K C t).2)
    (brute_force_row metric ls_cp t).
Proof.
  intros Hcp HC.
  pose proof (pool_chunks_wf ls_cp C Hcp) as Hwf.
  destruct (acc_row_length metric argpartition le Hcontract ls_cp K C t Hcp)
    as [HW1 HW2].
  unfold row_result.
  set (M := n_chunk_smallest_of K C) in *.
  set (cs := pool_chunks ls_cp C) in *.
  set (acc := acc_row metric argpartition M cs t) in *.
  destruct (final_row_smallest (n_smallest_of K ls_cp) (acc_width ls_cp K C)
              acc HW1 HW2) as (Hl1 & Hl2 & Hsm).
  set (r := final_row argpartition (n_smallest_of K ls_cp)
              (acc_width ls_cp K C) acc) in *.
  assert (smallest_of (le_dist le) (n_smallest_of K ls_cp) (zip r.1 r.2)
            (brute_force_row metric ls_cp t)) as Hall.
  { set (kept := λ c, zip (chunk_row metric argpartition M c t).1
                          (chunk_row metric argpartition M c t).2).
    assert (zip acc.1 acc.2 = mjoin (kept <$> cs)) as Hacc.
    { unfold acc, acc_row. cbn [fst snd]. apply zip_concat.
      eapply Forall_impl; [exact Hwf|].
      intros c [(Hidx & [Hrows _] & _) _]. simpl.
      destruct (chunk_row_length metric argpartition le Hcontract M c t
                  Hidx Hrows) as [-> ->]. done. }
    rewrite Hacc in Hsm.
    destruct (concat_kept_dropped (le_dist le) (n_smallest_of K ls_cp) M
                ((λ c, (kept c, chunk_candidates metric c t)) <$> cs))
      as (dropped & Hperm & Hdrop).
    { apply Forall_fmap. eapply Forall_impl; [exact Hwf|].
      intros c [(Hidx & [Hrows _] & _) Hle]. cbn [compose fst snd]. split.
      - by apply chunk_row_smallest.
      - unfold kept, chunk_candidates.
        destruct (chunk_row_length metric argpartition le Hcontract M c t
                    Hidx Hrows) as [Hk1 Hk2].
        rewrite !length_zip, Hk1, Hk2, length_fmap, Hidx, Hrows.
        unfold chunk_width. case_decide; [|lia]. intros _.
        rewrite Nat.min_id. apply n_smallest_le_chunk. fold M. lia. }
    assert (((λ c, (kept c, chunk_candidates metric c t)) <$> cs).*1 = kept <$> cs)
      as E1 by (by rewrite <- list_fmap_compose).
    assert (((λ c, (kept c, chunk_candidates metric c t)) <$> cs).*2
            = (λ c, chunk_candidates metric c t) <$> cs)
      as E2 by (by rewrite <- list_fmap_compose).
    rewrite E1, E2 in Hperm. setoid_rewrite E1 in Hdrop.
    eapply smallest_of_kept; [apply _..| | |exact Hsm].
    - rewrite (brute_force_chunks ls_cp C t HC); [exact Hperm|].
      eapply Forall_impl; [exact Hwf|].
      intros c [(Hidx & [Hrows _] & _) _]. simpl. lia.
    - exact Hdrop. }
  assert (length (zip r.1 r.2) = n_smallest_of K ls_cp) as Hlz.
  { destruct Hall as [-> _]. rewrite length_brute_force_row.
    destruct Hcp as [-> _]. pose proof (n_smallest_le K ls_cp). lia. }
  rewrite length_zip in Hlz. split_and!; [lia..|done].
Qed.
End row_props.

(** ** The reference selection meets the contract *)

Section selection_correct.
Context {D : Type} (le : relation D).
Context `{!RelDecision le, !Transitive le, !Total le}.
Implicit Types (l : list (D * nat)).

Lemma le_refl_total (x : D) : le x x.
Proof. by destruct (total le x x). Qed.

Lemma argmin_from_spec best bi i l :
  (argmin_from le best bi i l = bi ∧ ∀ z, z ∈ l → le best z.1) ∨
  (∃ y, i ≤ argmin_from le best bi i l ∧
        l !! (argmin_from le best bi i l - i) = Some y ∧
        le y.1 best ∧ ∀ z, z ∈ l → le y.1 z.1).
Proof.
  revert best bi i. induction l as [|x l IH]; intros best bi i.
  { left. split; [done|]. intros z Hz. by apply elem_of_nil in Hz. }
  cbn [argmin_from]. case_decide as Hx.
  - destruct (IH best bi (S i)) as [[-> Hall]|(y & Hi & Hy & Hyb & Hall)].
    + left. split; [done|]. intros z [->|Hz]%elem_of_cons; auto.
    + right. exists y. split_and!; [lia| |done|].
      * replace (argmin_from le best bi (S i) l - i)
          with (S (argmin_from le best bi (S i) l - S i)) by lia. done.
      * intros z [->|Hz]%elem_of_cons; [by trans best|auto].
  - assert (le x.1 best) as Hxb by (by destruct (total le x.1 best)).
    destruct (IH x.1 i (S i)) as [[-> Hall]|(y & Hi & Hy & Hyb & Hall)].
    + right. exists x. rewrite Nat.sub_diag. split_and!; [lia|done|done|].
      intros z [->|Hz]%elem_of_cons; [apply le_refl_total|auto].
    + right. exists y. split_and!; [lia| |by trans x.1|].
      * replace (argmin_from le x.1 i (S i) l - i)
          with (S (argmin_from le x.1 i (S i) l - S i)) by lia. done.
      * intros z [->|Hz]%elem_of_cons; auto.
Qed.

Lemma swap_head_Permutation (x y : D * nat) l m :
  l !! m = Some y → y :: <[m := x]> l ≡ₚ x :: l.
Proof.
  intros Hy. rewrite insert_take_drop by (by eapply lookup_lt_Some).
  rewrite <- (take_drop_middle l m y Hy) at 3.
  rewrite !Permutation_middle. f_equiv. apply perm_swap.
Qed.

Lemma dumb_select_Permutation steps l : dumb_select le steps l ≡ₚ l.
Proof.
  revert l. induction steps as [|steps IH]; intros l; [done|].
  destruct l as [|x xs]; [done|]. cbn [dumb_select].
  destruct (argmin_from le x.1 0 1 xs) as [|m]; [by rewrite IH|].
  destruct (xs !! m) as [y|] eqn:Hy; [|done].
  rewrite IH. by apply swap_head_Permutation.
Qed.

Lemma prefix_min_cons steps (x : D * nat) l :
  (∀ z, z ∈ l → le x.1 z.1) → prefix_min le steps l →
  prefix_min le (S steps) (x :: l).
Proof.
  intros Hx Hl i j a b Hi Hij Ha Hb.
  destruct i as [|i], j as [|j]; simplify_eq/=.
  - apply le_refl_total.
  - apply Hx. by eapply list_elem_of_lookup_2.
  - lia.
  - apply (Hl i j); [lia..|done|done].
Qed.

Lemma dumb_select_prefix_min steps l : prefix_min le steps (dumb_select le steps l).
Proof.
  revert l. induction steps as [|steps IH]; intros l.
  { intros i j x y Hi. lia. }
  destruct l as [|x xs].
  { intros i j a b _ _ Ha. done. }
  cbn [dumb_select].
  destruct (argmin_from_spec x.1 0 1 xs) as [[Hm Hall]|(y & Hi & Hy & Hyx & Hall)].
  - rewrite Hm. apply prefix_min_cons; [|apply IH].
    intros z Hz. apply Hall. by rewrite <- (dumb_select_Permutation steps xs).
  - destruct (argmin_from le x.1 0 1 xs) as [|m]; [lia|].
    replace (S m - 1) with m in Hy by lia. rewrite Hy.
    apply prefix_min_cons; [|apply IH].
    intros z Hz. rewrite dumb_select_Permutation in Hz.
    apply list_elem_of_lookup in Hz as [k Hk].
    destruct (decide (m = k)) as [->|Hne].
    + rewrite list_lookup_insert_eq in Hk by (by eapply lookup_lt_Some).
      by simplify_eq.
    + rewrite list_lookup_insert_ne in Hk by done.
      apply Hall. by eapply list_elem_of_lookup_2.
Qed.

Lemma argpartition_select_contract :
  argpartition_contract le (argpartition_select le).
Proof.
  intros a kth Hk. unfold argpartition_select.
  set (l0 := zip a (seq 0 (length a))).
  pose proof (dumb_select_Permutation (S kth) l0) as Hperm.
  pose proof (dumb_select_prefix_min (S kth) l0) as Hmin.
  set (res := dumb_select le (S kth) l0) in *.
  assert (∀ i p, res.*2 !! i = Some p →
    ∃ v, res !! i = Some (v, p) ∧ a !! p = Some v) as Hres.
  { intros i p Hp. rewrite list_lookup_fmap in Hp.
    destruct (res !! i) as [[v p']|] eqn:Hi; simplify_eq/=.
    exists v. split; [done|].
    assert ((v, p) ∈ l0) as Hin.
    { rewrite <- Hperm. by eapply list_elem_of_lookup_2. }
    apply list_elem_of_lookup in Hin as [j Hj]. unfold l0 in Hj.
    apply lookup_zip_with_Some in Hj as (v' & p' & ? & Hv & Hs).
    apply lookup_seq in Hs as [-> _]. by simplify_eq/=. }
  split.
  - rewrite Hperm. unfold l0. rewrite snd_zip; [done|].
    by rewrite length_seq.
  - intros i pi pk x y Hpk Hy Hpi Hx.
    destruct (Hres _ _ Hpk) as (vy & Hry & Hay).
    destruct (Hres _ _ Hpi) as (vx & Hrx & Hax).
    simplify_eq. split; intros Hlt.
    + apply (Hmin i kth (x, pi) (y, pk)); [lia..|done|done].
    + apply (Hmin kth i (y, pk) (x, pi)); [lia..|done|done].
Qed.
End selection_correct.

(** ** Properties of [calculate_distances] *)

Lemma smallest_of_snd {D} (le : relation D) k (s all : list (nat * D)) :
  smallest_of (le_dist le) k s all → smallest_of le k s.*2 all.*2.
Proof.
  intros (Hlen & rest & Hall & Hle). split.
  - by rewrite !length_fmap.
  - exists rest.*2. split; [by rewrite Hall, fmap_app|].
    intros x y (p & -> & Hp)%list_elem_of_fmap (q & -> & Hq)%list_elem_of_fmap.
    by apply Hle.
Qed.

Lemma elem_of_zip_fst {A B} (l : list A) (k : list B) x :
  length l = length k → x ∈ l → ∃ y, (x, y) ∈ zip l k.
Proof.
  intros Hlen [i Hi]%list_elem_of_lookup.
  destruct (lookup_lt_is_Some_2 k i) as [y Hy].
  { rewrite <- Hlen. by eapply lookup_lt_Some. }
  exists y. apply list_elem_of_lookup. exists i.
  apply lookup_zip_with_Some. eauto.
Qed.

Lemma elem_of_zip_snd {A B} (l : list A) (k : list B) y :
  length l = length k → y ∈ k → ∃ x, (x, y) ∈ zip l k.
Proof.
  intros Hlen [i Hi]%list_elem_of_lookup.
  destruct (lookup_lt_is_Some_2 l i) as [x Hx].
  { rewrite Hlen. by eapply lookup_lt_Some. }
  exists x. apply list_elem_of_lookup. exists i.
  apply lookup_zip_with_Some. eauto.
Qed.

Lemma elem_of_brute_force_row {F D} (metric : list F → list F → D)
    (ls_cp : ndarray F) t j d :
  (j, d) ∈ brute_force_row metric ls_cp t ↔
  ∃ x, rows ls_cp !! j = Some x ∧ d = metric t x.
Proof.
  unfold brute_force_row. rewrite list_elem_of_lookup. split.
  - intros (i & (j' & d' & ? & Hj & Hd)%lookup_zip_with_Some).
    apply lookup_seq in Hj as [-> _]. simplify_eq/=.
    rewrite list_lookup_fmap in Hd.
    destruct (rows ls_cp !! i) as [x|]; simplify_eq/=. eauto.
  - intros (x & Hx & ->). exists j. apply lookup_zip_with_Some.
    exists j, (metric t x). split_and!; [done| |].
    + apply lookup_seq. split; [done|]. by eapply lookup_lt_Some.
    + by rewrite list_lookup_fmap, Hx.
Qed.

(** Candidates drawn from the brute-force list without repetition: their
    row indices are distinct and each distance is the distance to the row
    its index names. *)
Lemma candidates_of_pool {F D} (metric : list F → list F → D)
    (ls_cp : ndarray F) (t : list F) (ids : list nat) (ds : list D)
    (rest : list (nat * D)) :
  brute_force_row metric ls_cp t ≡ₚ zip ids ds ++ rest →
  length ids = length ds →
  NoDup ids ∧
  ∀ j idx d, ids !! j = Some idx → ds !! j = Some d →
    ∃ x, rows ls_cp !! idx = Some x ∧ d = metric t x.
Proof.
  intros Hperm Hlen. split.
  - assert (NoDup (brute_force_row metric ls_cp t).*1) as Hnd.
    { unfold brute_force_row. rewrite fst_zip.
      - apply NoDup_seq.
      - rewrite length_seq, length_fmap. lia. }
    rewrite Hperm, fmap_app in Hnd. apply NoDup_app in Hnd as [Hnd _].
    rewrite fst_zip in Hnd by lia. done.
  - intros j idx d Hi Hd.
    assert ((idx, d) ∈ brute_force_row metric ls_cp t) as Hin.
    { rewrite Hperm. apply elem_of_app. left.
      apply list_elem_of_lookup. exists j.
      apply lookup_zip_with_Some. eauto. }
    by apply elem_of_brute_force_row in Hin.
Qed.

(** Candidates that exhaust the brute-force list: when as many are drawn
    as the pool has rows, every pool row is among them, with its
    distance. *)
Lemma pool_of_candidates {F D} (metric : list F → list F → D)
    (ls_cp : ndarray F) (t : list F) (ids : list nat) (ds : list D)
    (rest : list (nat * D)) :
  brute_force_row metric ls_cp t ≡ₚ zip ids ds ++ rest →
  length ids = length (rows ls_cp) → length ds = length (rows ls_cp) →
  ∀ idx x, rows ls_cp !! idx = Some x →
    ∃ j, ids !! j = Some idx ∧ ds !! j = Some (metric t x).
Proof.
  intros Hperm Hli Hld idx x Hx.
  assert (rest = []) as ->.
  { apply nil_length_inv. apply Permutation_length in Hperm.
    rewrite length_app, length_zip in Hperm.
    unfold brute_force_row in Hperm.
    rewrite length_zip, length_seq, length_fmap in Hperm. lia. }
  rewrite app_nil_r in Hperm.
  assert ((idx, metric t x) ∈ zip ids ds) as Hin.
  { rewrite <- Hperm. apply elem_of_brute_force_row. eauto. }
  apply list_elem_of_lookup in Hin as [j Hj].
  apply lookup_zip_with_Some in Hj as (a & b & ? & ? & ?).
  simplify_eq. eauto.
Qed.

Section engine_correct.
Context {F D : Type}.
Variable metric : list F → list F → D.
Variable argpartition : list D → nat → list nat.
Context (le : relation D) `{!RelDecision le, !Transitive le, !Total le}.
Hypothesis Hcontract : argpartition_contract le argpartition.

(** On valid input with a non-empty pool the engine returns two arrays
    of shape [n_t × n_smallest]; row [i] of the pair holds the
    [n_smallest] nearest candidates of treatment row [i]. *)
Lemma calculate_distances_correct ls_t ls_cp K C :
  valid_input ls_t ls_cp C → 0 < shape0 ls_cp →
  ∃ ids ds,
    calculate_distances metric argpartition ls_t ls_cp K C = Ok (ids, ds) ∧
    shape0 ids = shape0 ls_t ∧ shape0 ds = shape0 ls_t ∧
    shape1 ids = n_smallest_of K ls_cp ∧ shape1 ds = n_smallest_of K ls_cp ∧
    length (rows ids) = shape0 ls_t ∧ length (rows ds) = shape0 ls_t ∧
    ∀ i t, rows ls_t !! i = Some t →
      ∃ ids_i ds_i,
        rows ids !! i = Some ids_i ∧ rows ds !! i = Some ds_i ∧
        length ids_i = n_smallest_of K ls_cp ∧
        length ds_i = n_smallest_of K ls_cp ∧
        smallest_of (le_dist le) (n_smallest_of K ls_cp)
          (zip ids_i ds_i) (brute_force_row metric ls_cp t).
Proof.
  intros (Ht & Hcp & Hd & HC) Hn.
  eexists _, _. split.
  { by apply (calculate_distances_rowwise metric argpartition le Hcontract). }
  cbn [shape0 shape1 rows].
  assert (final_width (n_smallest_of K ls_cp) (acc_width ls_cp K C)
          = n_smallest_of K ls_cp) as ->.
  { destruct (row_result_smallest metric argpartition le Hcontract
                ls_cp K C [] Hcp HC) as (Hl & _ & _).
    unfold row_result in Hl.
    destruct (acc_row_length metric argpartition le Hcontract ls_cp K C []
                Hcp) as [HW1 HW2].
    destruct (final_row_smallest argpartition le Hcontract
                (n_smallest_of K ls_cp) (acc_width ls_cp K C) _ HW1 HW2)
      as (Hf & _ & _).
    congruence. }
  destruct Ht as [Hlt _]. rewrite !length_fmap.
  split_and!; try done.
  intros i t Hi. eexists _, _. rewrite !list_lookup_fmap, Hi. csimpl.
  split_and!; [done|done|..];
    by apply (row_result_smallest metric argpartition le Hcontract).
Qed.

(** C3. On valid input with a non-empty pool and a positive [K], the
    call returns and every treatment row gets exactly [min K n_cp]
    (row index, distance) pairs: both of its rows have that length, the
    indices are pairwise distinct rows of the pool, and the distance at
    a position is the distance from the treatment row to the pool row
    whose index stands at that position.  Asking for more matches than
    the pool has rows is not an error: when [n_cp <= K] every pool row
    is among the pairs of every treatment row, with its distance. *)
Theorem calculate_distances_size ls_t ls_cp K C :
  valid_input ls_t ls_cp C → 0 < shape0 ls_cp → 0 < K →
  ∃ ids ds,
    calculate_distances metric argpartition ls_t ls_cp (Some K) C = Ok (ids, ds) ∧
    length (rows ids) = shape0 ls_t ∧ length (rows ds) = shape0 ls_t ∧
    shape1 ids = min K (shape0 ls_cp) ∧ shape1 ds = min K (shape0 ls_cp) ∧
    Forall (λ r, length r = min K (shape0 ls_cp)) (rows ids) ∧
    Forall (λ r, length r = min K (shape0 ls_cp)) (rows ds) ∧
    ∀ i t, rows ls_t !! i = Some t →
      ∃ ids_i ds_i,
        rows ids !! i = Some ids_i ∧ rows ds !! i = Some ds_i ∧
        length ids_i = min K (shape0 ls_cp) ∧
        length ds_i = min K (shape0 ls_cp) ∧
        NoDup ids_i ∧
        (∀ j idx d, ids_i !! j = Some idx → ds_i !! j = Some d →
           ∃ x, rows ls_cp !! idx = Some x ∧ d = metric t x) ∧
        (shape0 ls_cp ≤ K →
         ∀ idx x, rows ls_cp !! idx = Some x →
           ∃ j, ids_i !! j = Some idx ∧ ds_i !! j = Some (metric t x)).
Proof.
  intros Hv Hn HK.
  destruct (calculate_distances_correct ls_t ls_cp (Some K) C Hv Hn)
    as (ids & ds & Hcd & _ & _ & Hs1 & Hs2 & Hl1 & Hl2 & Hrows).
  rewrite n_smallest_min in *.
  exists ids, ds. split_and!; try done.
  - apply Forall_lookup. intros i r Hr.
    destruct (lookup_lt_is_Some_2 (rows ls_t) i) as [t Ht].
    { rewrite (proj1 (proj1 Hv)), <- Hl1. by eapply lookup_lt_Some. }
    destruct (Hrows i t Ht) as (ids_i & ds_i & ? & ? & ? & ? & _).
    by simplify_eq.
  - apply Forall_lookup. intros i r Hr.
    destruct (lookup_lt_is_Some_2 (rows ls_t) i) as [t Ht].
    { rewrite (proj1 (proj1 Hv)), <- Hl2. by eapply lookup_lt_Some. }
    destruct (Hrows i t Ht) as (ids_i & ds_i & ? & ? & ? & ? & _).
    by simplify_eq.
  - intros i t Ht.
    destruct (Hrows i t Ht) as (ids_i & ds_i & Hi & Hd & Hli & Hld & Hsm).
    destruct Hsm as (_ & rest & Hall & _).
    destruct (candidates_of_pool metric ls_cp t ids_i ds_i rest Hall)
      as [Hnd Hal]; [lia|].
    exists ids_i, ds_i. split_and!; try done.
    intros HnK. destruct Hv as (_ & [Hcp _] & _).
    apply (pool_of_candidates metric ls_cp t ids_i ds_i rest Hall); lia.
Qed.
End engine_correct.

Section claims.
Context {F D : Type}.
Variable metric : list F → list F → D.
Variable argpartition : list D → nat → list nat.
Context (le : relation D) `{!RelDecision le, !Transitive le, !Total le}.
Hypothesis Hcontract : argpartition_contract le argpartition.

(** C1. For valid input, a positive [K] no larger than the pool and any
    positive chunk size, the call returns, and for each treatment row
    the [K] returned (row index, distance) entries are, as a set, the
    first [K] entries of an ascending sort of the brute-force list of
    all (row index, distance) candidates of that row; with an
    antisymmetric order the returned distances are exactly the first
    [K] of the sorted brute-force distances. *)
Theorem calculate_distances_exact `{!AntiSymm (=) le} ls_t ls_cp K C :
  valid_input ls_t ls_cp C → 0 < K → K ≤ shape0 ls_cp →
  ∃ ids ds,
    calculate_distances metric argpartition ls_t ls_cp (Some K) C = Ok (ids, ds) ∧
    ∀ i t, rows ls_t !! i = Some t →
      ∃ ids_i ds_i,
        rows ids !! i = Some ids_i ∧ rows ds !! i = Some ds_i ∧
        length ids_i = K ∧ length ds_i = K ∧
        (∃ full, full ≡ₚ brute_force_row metric ls_cp t ∧
                 StronglySorted (le_dist le) full ∧
                 zip ids_i ds_i ≡ₚ take K full) ∧
        ds_i ≡ₚ take K (merge_sort le (metric t <$> rows ls_cp)).
Proof.
  intros Hv HK HKn.
  destruct (calculate_distances_correct metric argpartition le Hcontract
              ls_t ls_cp (Some K) C Hv) as (ids & ds & Hcd & _ & _ & _ & _ & _ & _ & Hrows);
    [lia|].
  exists ids, ds. split; [done|]. intros i t Ht.
  destruct (Hrows i t Ht) as (ids_i & ds_i & Hi & Hd & Hl1 & Hl2 & Hsm).
  rewrite n_smallest_min, Nat.min_l in Hl1, Hl2, Hsm by done.
  exists ids_i, ds_i. split_and!; try done.
  - apply (smallest_of_sorted_prefix (le_dist le)). exact Hsm.
  - apply smallest_of_snd in Hsm.
    rewrite snd_zip in Hsm by lia.
    unfold brute_force_row in Hsm.
    rewrite snd_zip in Hsm by (rewrite length_seq, length_fmap; lia).
    eapply (smallest_of_unique le); [exact Hsm|].
    eapply (smallest_of_Permutation le); [apply (merge_sort_Permutation le)|].
    apply (smallest_of_take_sorted le).
    by apply StronglySorted_merge_sort.
Qed.

(** C8. On valid input, every index in the returned index array is a
    row index of the comparison pool, and it is one of the indices
    carried by a chunk that the chunk generator yields for the pool;
    with a non-empty pool the call does return. *)
Theorem calculate_distances_indices_valid ls_t ls_cp K C :
  valid_input ls_t ls_cp C →
  (0 < shape0 ls_cp →
   is_Ok (calculate_distances metric argpartition ls_t ls_cp K C)) ∧
  ∀ ids ds,
    calculate_distances metric argpartition ls_t ls_cp K C = Ok (ids, ds) →
    Forall (Forall (λ j,
      j < shape0 ls_cp ∧ is_Some (rows ls_cp !! j) ∧
      ∃ cs chunk, chunks ls_cp C = Ok cs ∧ chunk ∈ cs ∧ j ∈ chunk.1))
      (rows ids).
Proof.
  intros Hv.
  destruct (decide (0 < shape0 ls_cp)) as [Hn|Hn].
  - destruct (calculate_distances_correct metric argpartition le Hcontract
                ls_t ls_cp K C Hv Hn)
      as (ids & ds & Hcd & _ & _ & _ & _ & Hl1 & _ & Hrows).
    split; [intros _; by eexists|].
    intros ids' ds' Hcd'. rewrite Hcd in Hcd'. simplify_eq.
    destruct Hv as (Ht & Hcp & Hd & HC).
    apply Forall_lookup. intros i r Hr.
    destruct (lookup_lt_is_Some_2 (rows ls_t) i) as [t Hti].
    { rewrite (proj1 Ht), <- Hl1. by eapply lookup_lt_Some. }
    destruct (Hrows i t Hti) as (ids_i & ds_i & Hi & _ & Hli & Hld & Hsm).
    assert (ids_i = r) as -> by congruence.
    apply Forall_forall. intros j Hj.
    destruct (elem_of_zip_fst r ds_i j) as [d Hjd]; [lia|done|].
    destruct Hsm as (_ & rest & Hall & _).
    assert ((j, d) ∈ brute_force_row metric ls_cp t) as Hin.
    { rewrite Hall. apply elem_of_app. by left. }
    apply elem_of_brute_force_row in Hin as (x & Hx & _).
    assert (j < length (rows ls_cp)) as Hlt by (by eapply lookup_lt_Some).
    split_and!; [by rewrite <- (proj1 Hcp)|by eexists|].
    exists (pool_chunks ls_cp C).
    assert (j ∈ mjoin ((λ c, c.1) <$> pool_chunks ls_cp C)) as Hjc.
    { unfold pool_chunks. rewrite chunks_from_indices by done.
      apply elem_of_seq. lia. }
    apply list_elem_of_join in Hjc as (l & Hjl & Hl).
    apply list_elem_of_fmap in Hl as (chunk & -> & Hchunk).
    exists chunk. split_and!; [by apply chunks_pool|done|done].
  - split; [lia|]. intros ids ds Hcd. exfalso.
    destruct Hv as (Ht & Hcp & Hd & HC).
    unfold calculate_distances, accumulate in Hcd.
    rewrite chunks_pool in Hcd by done. unfold pool_chunks in Hcd.
    assert (rows ls_cp = []) as Hnil.
    { apply nil_length_inv. rewrite (proj1 Hcp). lia. }
    rewrite Hnil in Hcd. simpl in Hcd. done.
Qed.

(** C2, as the code has it.  On valid input with a non-empty pool the
    call returns, and within each treatment row every returned distance
    is less than or equal to the distance of every comparison row that
    was left out: the row holds the nearest candidates.  The order of
    the distances within the row is not part of the guarantee. *)
Theorem calculate_distances_nearest ls_t ls_cp K C :
  valid_input ls_t ls_cp C → 0 < shape0 ls_cp →
  ∃ ids ds,
    calculate_distances metric argpartition ls_t ls_cp K C = Ok (ids, ds) ∧
    ∀ i t, rows ls_t !! i = Some t →
      ∃ ids_i ds_i,
        rows ids !! i = Some ids_i ∧ rows ds !! i = Some ds_i ∧
        ∀ d j x, d ∈ ds_i → rows ls_cp !! j = Some x → j ∉ ids_i →
          le d (metric t x).
Proof.
  intros Hv Hn.
  destruct (calculate_distances_correct metric argpartition le Hcontract
              ls_t ls_cp K C Hv Hn)
    as (ids & ds & Hcd & _ & _ & _ & _ & _ & _ & Hrows).
  exists ids, ds. split; [done|]. intros i t Ht.
  destruct (Hrows i t Ht) as (ids_i & ds_i & Hi & Hd & Hl1 & Hl2 & Hsm).
  exists ids_i, ds_i. split_and!; [done..|].
  intros d j x Hdin Hx Hj.
  destruct Hsm as (_ & rest & Hall & Hle).
  destruct (elem_of_zip_snd ids_i ds_i d) as [j' Hjd]; [lia|done|].
  assert ((j, metric t x) ∈ brute_force_row metric ls_cp t) as Hin.
  { apply elem_of_brute_force_row. eauto. }
  rewrite Hall in Hin. apply elem_of_app in Hin as [Hin|Hin].
  - exfalso. apply Hj. by eapply elem_of_zip_l.
  - apply (Hle (j', d) (j, metric t x)); done.
Qed.

(** C5. The per-chunk target count is [M = min K C].  For a chunk of
    [c] rows the loop body returns, and for each treatment row the
    entries it retains are the [min M c] smallest candidates of that row
    within the chunk, in no particular order; when [c ≤ M] the body
    returns the whole chunk: the tiled indices and the full distance
    block. *)
Theorem chunk_step_retains ls_t chunk K C :
  wf_ndarray ls_t → wf_chunk (shape1 ls_t) chunk →
  n_chunk_smallest_of (Some K) C = min K C ∧
  ∃ ids ds,
    chunk_step metric argpartition ls_t (min K C) chunk = Ok (ids, ds) ∧
    shape1 ids = min (min K C) (shape0 chunk.2) ∧
    shape1 ds = min (min K C) (shape0 chunk.2) ∧
    (∀ i t, rows ls_t !! i = Some t →
       ∃ ids_i ds_i,
         rows ids !! i = Some ids_i ∧ rows ds !! i = Some ds_i ∧
         length ids_i = min (min K C) (shape0 chunk.2) ∧
         length ds_i = min (min K C) (shape0 chunk.2) ∧
         smallest_of (le_dist le) (min (min K C) (shape0 chunk.2))
           (zip ids_i ds_i) (chunk_candidates metric chunk t)) ∧
    (shape0 chunk.2 ≤ min K C →
       ids = np_tile chunk.1 (shape0 ls_t) ∧
       cdist metric ls_t chunk.2 = Ok ds).
Proof.
  intros Ht Hc. split; [apply n_chunk_smallest_min|].
  set (M := min K C).
  pose proof (chunk_step_rowwise metric argpartition le Hcontract
                ls_t M chunk Ht Hc) as Hstep.
  destruct Hc as (Hidx & [Hrows Hcols] & Hd).
  eexists _, _. split; [exact Hstep|]. cbn [shape0 shape1 rows].
  assert (chunk_width M chunk = min M (shape0 chunk.2)) as Hw.
  { unfold chunk_width. case_decide; lia. }
  split_and!; [done..| |].
  - intros i t Hi. eexists _, _. rewrite !list_lookup_fmap, Hi. csimpl.
    destruct (chunk_row_length metric argpartition le Hcontract M chunk t
                Hidx Hrows) as [Hl1 Hl2].
    split_and!; [done|done|congruence|congruence|].
    pose proof (chunk_row_smallest metric argpartition le Hcontract
                  M chunk t Hidx Hrows) as (Hlen & Hrest).
    split; [|done]. rewrite Hlen. unfold chunk_candidates.
    rewrite length_zip, length_fmap, Hidx, Hrows. lia.
  - intros Hle.
    assert (∀ t, chunk_row metric argpartition M chunk t
                 = (chunk.1, metric t <$> rows chunk.2)) as Hfull.
    { intros t. unfold chunk_row. by rewrite decide_False by lia. }
    unfold chunk_width, cdist, np_tile.
    rewrite decide_False by lia. rewrite decide_True by congruence.
    destruct Ht as [Hlt _]. split.
    + f_equal; [done|].
      rewrite <- Hlt, replicate_length_fmap.
      apply list_fmap_ext. intros ? t _. by rewrite Hfull.
    + do 2 f_equal. apply list_fmap_ext. intros ? t _. by rewrite Hfull.
Qed.

(** An empty pool: the chunk generator yields nothing, both lists stay
    empty and [np.hstack] raises. *)
Lemma calculate_distances_empty_pool ls_t ls_cp K C :
  rows ls_cp = [] → 0 < C →
  calculate_distances metric argpartition ls_t ls_cp K C
  = Raise (ValueError "need at least one array to concatenate").
Proof.
  intros Hnil HC. unfold calculate_distances, accumulate.
  rewrite chunks_pool by done. unfold pool_chunks. by rewrite Hnil.
Qed.

Lemma NoDup_fmap_eq {A B} (f : A → B) (l : list A) x y :
  NoDup (f <$> l) → x ∈ l → y ∈ l → f x = f y → x = y.
Proof.
  induction l as [|a l IH]; csimpl; intros Hnd Hx Hy Hf.
  { by apply elem_of_nil in Hx. }
  apply NoDup_cons in Hnd as [Ha Hnd].
  apply elem_of_cons in Hx as [->|Hx], Hy as [->|Hy]; [done|..].
  - exfalso. apply Ha. rewrite Hf. by apply list_elem_of_fmap_2.
  - exfalso. apply Ha. rewrite <- Hf. by apply list_elem_of_fmap_2.
  - by apply IH.
Qed.

(** Without ties the nearest candidates are one set of pairs. *)
Lemma smallest_of_unique_pairs `{!AntiSymm (=) le} k
    (s1 s2 all : list (nat * D)) :
  NoDup all.*2 →
  smallest_of (le_dist le) k s1 all → smallest_of (le_dist le) k s2 all →
  s1 ≡ₚ s2.
Proof.
  intros Hnd H1 H2.
  assert (s1.*2 ≡ₚ s2.*2) as Hd.
  { eapply (smallest_of_unique le); by apply smallest_of_snd. }
  assert (∀ k s, smallest_of (le_dist le) k s all →
    NoDup s ∧ ∀ p, p ∈ s → p ∈ all) as Hsub.
  { intros k' s (_ & rest & Hall & _). split.
    - apply NoDup_fmap_1 in Hnd. rewrite Hall in Hnd.
      by apply NoDup_app in Hnd as [? _].
    - intros p Hp. rewrite Hall. apply elem_of_app. by left. }
  destruct (Hsub _ _ H1) as [Hnd1 Hin1], (Hsub _ _ H2) as [Hnd2 Hin2].
  assert (∀ sa sb, sa.*2 ≡ₚ sb.*2 → (∀ p, p ∈ sa → p ∈ all) →
    (∀ p, p ∈ sb → p ∈ all) → ∀ p, p ∈ sa → p ∈ sb) as Hincl.
  { intros sa sb Hab Ha Hb p Hp.
    assert (p.2 ∈ sb.*2) as Hq.
    { rewrite <- Hab. by apply list_elem_of_fmap_2. }
    apply list_elem_of_fmap in Hq as (q & Hpq & Hq).
    assert (p = q) as ->; [|done].
    apply (NoDup_fmap_eq snd all); auto. }
  apply NoDup_Permutation; [done..|].
  intros p. split; apply Hincl; auto. by symmetry.
Qed.


(** When the per-chunk target count is at least the chunk size no chunk
    is cut: the buffers hold every pool row, in pool order. *)
Lemma acc_row_full ls_cp K C t :
  wf_ndarray ls_cp → 0 < C → C ≤ n_chunk_smallest_of K C →
  acc_row metric argpartition (n_chunk_smallest_of K C) (pool_chunks ls_cp C) t
  = (seq 0 (length (rows ls_cp)), metric t <$> rows ls_cp).
Proof.
  intros Hcp HC HM. pose proof (pool_chunks_wf ls_cp C Hcp) as Hwf.
  set (M := n_chunk_smallest_of K C) in *.
  assert (∀ i c, pool_chunks ls_cp C !! i = Some c →
    chunk_row metric argpartition M c t = (c.1, metric t <$> rows c.2))
    as Hfull.
  { intros i c Hc. apply (Forall_lookup_1 _ _ _ _ Hwf) in Hc as [_ Hle].
    unfold chunk_row. by rewrite decide_False by lia. }
  unfold acc_row. f_equal.
  - rewrite <- (chunks_from_indices (length (rows ls_cp)) 0 (shape1 ls_cp)
                  (rows ls_cp) C) by done.
    f_equal. apply list_fmap_ext. intros i c Hc. by rewrite (Hfull i c Hc).
  - rewrite <- (chunks_from_rows (length (rows ls_cp)) 0 (shape1 ls_cp)
                  (rows ls_cp) C) at 1 by done.
    rewrite <- fmap_concat_fmap.
    f_equal. apply list_fmap_ext. intros i c Hc. by rewrite (Hfull i c Hc).
Qed.

Lemma acc_width_full (ls_cp : ndarray F) K C :
  wf_ndarray ls_cp → 0 < C → C ≤ n_chunk_smallest_of K C →
  acc_width ls_cp K C = shape0 ls_cp.
Proof.
  intros Hcp HC HM.
  destruct (acc_row_length metric argpartition le Hcontract ls_cp K C [] Hcp)
    as [_ <-].
  rewrite acc_row_full by done. cbn [snd].
  rewrite length_fmap. apply Hcp.
Qed.

Lemma acc_width_sum (ls_cp : ndarray F) K C :
  acc_width ls_cp K C
  = sum_list ((λ c, min (n_chunk_smallest_of K C) (shape0 c.2))
                <$> pool_chunks ls_cp C).
Proof.
  unfold acc_width. f_equal. apply list_fmap_ext. intros i c _.
  unfold chunk_width. case_decide; lia.
Qed.

(** C9, as the code has it.  On valid input with a non-empty pool:
    each per-chunk distance block has [n_t] rows and as many columns as
    the chunk has rows, at most the chunk size; the buffer that
    [np.hstack] builds from the retained blocks has [n_t] rows and the
    sum over the chunks of [min M c] columns, with [M] the per-chunk
    target count; and when that count is not below the chunk size ([K]
    is [None] or at least the chunk size) this buffer is the full
    [n_t × n_cp] distance matrix. *)
Theorem accumulate_buffers ls_t ls_cp K C :
  valid_input ls_t ls_cp C → 0 < shape0 ls_cp →
  (∀ chunk, chunk ∈ pool_chunks ls_cp C →
     ∃ m, cdist metric ls_t chunk.2 = Ok m ∧
          shape0 m = shape0 ls_t ∧ shape1 m = shape0 chunk.2 ∧
          shape0 chunk.2 ≤ C) ∧
  ∃ ids dist,
    accumulate metric argpartition ls_t ls_cp K C = Ok (ids, dist) ∧
    shape0 dist = shape0 ls_t ∧
    shape1 dist = sum_list ((λ c, min (n_chunk_smallest_of K C) (shape0 c.2))
                              <$> pool_chunks ls_cp C) ∧
    (C ≤ n_chunk_smallest_of K C →
       shape1 dist = shape0 ls_cp ∧ cdist metric ls_t ls_cp = Ok dist).
Proof.
  intros (Ht & Hcp & Hd & HC) Hn. split.
  - intros chunk Hin.
    pose proof (pool_chunks_wf ls_cp C Hcp) as Hwf.
    rewrite Forall_forall in Hwf.
    destruct (Hwf chunk Hin) as [(_ & _ & Hdc) Hle].
    unfold cdist. rewrite decide_True by congruence.
    eexists. split; [done|]. by cbn [shape0 shape1].
  - eexists _, _. split.
    { by apply (accumulate_rowwise metric argpartition le Hcontract). }
    cbn [shape0 shape1]. split_and!; [done|apply acc_width_sum|].
    intros HM. rewrite acc_width_full by done. split; [done|].
    unfold cdist. rewrite decide_True by done. do 2 f_equal.
    apply list_fmap_ext. intros i t _. by rewrite acc_row_full.
Qed.

(** C10.  With [n_matches_per_treatment = None] neither stage cuts
    anything: the per-chunk target count is the chunk size and the final
    one is the pool size, the buffers hold every pool row, and on valid
    input with a non-empty pool the call returns, for every treatment
    row, all [n_cp] pool rows: the indices [0 .. n_cp - 1] and the
    distances to all pool rows, in pool order. *)
Theorem calculate_distances_none ls_t ls_cp C :
  valid_input ls_t ls_cp C → 0 < shape0 ls_cp →
  n_chunk_smallest_of None C = C ∧
  n_smallest_of None ls_cp = shape0 ls_cp ∧
  (∃ dist, cdist metric ls_t ls_cp = Ok dist ∧
     accumulate metric argpartition ls_t ls_cp None C
     = Ok (np_tile (np_arange (shape0 ls_cp)) (shape0 ls_t), dist) ∧
     calculate_distances metric argpartition ls_t ls_cp None C
     = Ok (np_tile (np_arange (shape0 ls_cp)) (shape0 ls_t), dist)) ∧
  ∀ ids ds,
    calculate_distances metric argpartition ls_t ls_cp None C = Ok (ids, ds) →
    ∀ i t, rows ls_t !! i = Some t →
      rows ids !! i = Some (seq 0 (shape0 ls_cp)) ∧
      rows ds !! i = Some (metric t <$> rows ls_cp).
Proof.
  intros (Ht & Hcp & Hd & HC) Hn.
  assert (calculate_distances metric argpartition ls_t ls_cp None C
          = Ok (np_tile (np_arange (shape0 ls_cp)) (shape0 ls_t),
                NDArray (shape0 ls_t) (shape0 ls_cp)
                  ((λ a, metric a <$> rows ls_cp) <$> rows ls_t))) as Hcd.
  { rewrite (calculate_distances_rowwise metric argpartition le Hcontract)
      by done.
    assert (∀ t, row_result metric argpartition ls_cp None C t
                 = (seq 0 (shape0 ls_cp), metric t <$> rows ls_cp)) as Hrow.
    { intros t. unfold row_result.
      rewrite acc_row_full, acc_width_full by done.
      unfold final_row. cbn [n_smallest_of fst snd].
      rewrite decide_False by lia.
      rewrite <- (proj1 Hcp).
      rewrite !sel_arange_length; [done|by rewrite length_fmap|].
      by rewrite length_seq. }
    rewrite acc_width_full by done. unfold final_width, np_tile, np_arange.
    cbn [n_smallest_of]. rewrite decide_False by lia. rewrite length_seq.
    destruct Ht as [Hlt _].
    do 2 f_equal.
    - f_equal. rewrite <- Hlt, replicate_length_fmap.
      apply list_fmap_ext. intros i t _. by rewrite Hrow.
    - f_equal. apply list_fmap_ext. intros i t _. by rewrite Hrow. }
  split_and!; [done|done| |].
  - eexists. unfold cdist. rewrite decide_True by done.
    split_and!; [done| |exact Hcd].
    rewrite (accumulate_rowwise metric argpartition le Hcontract) by done.
    rewrite acc_width_full by done. unfold np_tile, np_arange.
    rewrite length_seq. destruct Ht as [Hlt _]. do 2 f_equal.
    + f_equal. rewrite <- Hlt, replicate_length_fmap.
      apply list_fmap_ext. intros i t _. rewrite acc_row_full by done.
      cbn [fst]. by rewrite (proj1 Hcp).
    + f_equal. apply list_fmap_ext. intros i t _.
      by rewrite acc_row_full.
  - intros ids ds Hcd'. rewrite Hcd in Hcd'. simplify_eq.
    intros i t Hi. unfold np_tile, np_arange. cbn [rows]. split.
    + apply lookup_replicate_2. rewrite <- (proj1 Ht).
      by eapply lookup_lt_Some.
    + by rewrite list_lookup_fmap, Hi.
Qed.

(** C7, as the code has it.  The engine validates nothing before the
    loop.  A feature-dimensionality mismatch against a non-empty pool is
    met by [cdist] inside the loop body, on the first chunk, and the call
    fails with that error.  A treatment matrix with zero rows is not an
    error: against a non-empty pool of the same dimensionality the call
    returns two arrays with zero rows. *)
Theorem calculate_distances_no_validation ls_t ls_cp K C :
  0 < C →
  (shape1 ls_t ≠ shape1 ls_cp → rows ls_cp ≠ [] →
     ∃ chunk cs,
       chunks ls_cp C = Ok (chunk :: cs) ∧
       chunk_step metric argpartition ls_t (n_chunk_smallest_of K C) chunk
       = Raise (ValueError "XA and XB must have the same number of columns (i.e. feature dimension.)") ∧
       calculate_distances metric argpartition ls_t ls_cp K C
       = Raise (ValueError "XA and XB must have the same number of columns (i.e. feature dimension.)")) ∧
  (valid_input ls_t ls_cp C → shape0 ls_t = 0 → 0 < shape0 ls_cp →
     ∃ ids ds,
       calculate_distances metric argpartition ls_t ls_cp K C = Ok (ids, ds) ∧
       shape0 ids = 0 ∧ shape0 ds = 0 ∧ rows ids = [] ∧ rows ds = []).
Proof.
  intros HC. split.
  - intros Hd Hne. destruct (rows ls_cp) as [|r rs] eqn:Hrows; [done|].
    eexists _, _. split.
    { rewrite chunks_pool by done. unfold pool_chunks. rewrite Hrows.
      cbn [length chunks_from]. done. }
    assert (∀ idx c d, chunk_step metric argpartition ls_t
              (n_chunk_smallest_of K C) (idx, NDArray c (shape1 ls_cp) d)
            = Raise (ValueError "XA and XB must have the same number of columns (i.e. feature dimension.)"))
      as Hstep.
    { intros idx c d. unfold chunk_step, cdist. cbn [shape1].
      by rewrite decide_False by done. }
    split; [apply Hstep|].
    unfold calculate_distances, accumulate.
    rewrite chunks_pool by done. unfold pool_chunks. rewrite Hrows.
    cbn [length chunks_from mbind result_bind chunk_loop].
    by rewrite Hstep.
  - intros Hv Hn0 Hn.
    destruct (calculate_distances_correct metric argpartition le Hcontract
                ls_t ls_cp K C Hv Hn)
      as (ids & ds & Hcd & Hs1 & Hs2 & _ & _ & Hl1 & Hl2 & _).
    exists ids, ds. split_and!; [done|lia|lia|..];
      apply nil_length_inv; lia.
Qed.
End claims.

(** ** The engine on concrete inputs *)

(** The theorem for C1 at [ex_t], [ex_cp], [K = 2] and a chunk size of
    three. *)
Lemma calculate_distances_exact_witness :
  valid_input ex_t ex_cp 3 ∧
  ∃ ids ds,
    calculate_distances cityblock (argpartition_select Z.le) ex_t ex_cp (Some 2) 3
    = Ok (ids, ds) ∧
    ∀ i t, rows ex_t !! i = Some t →
      ∃ ids_i ds_i,
        rows ids !! i = Some ids_i ∧ rows ds !! i = Some ds_i ∧
        length ids_i = 2 ∧ length ds_i = 2 ∧
        (∃ full, full ≡ₚ brute_force_row cityblock ex_cp t ∧
                 StronglySorted (le_dist Z.le) full ∧
                 zip ids_i ds_i ≡ₚ take 2 full) ∧
        ds_i ≡ₚ take 2 (merge_sort Z.le (cityblock t <$> rows ex_cp)).
Proof.
  split; [solve_valid|].
  apply (calculate_distances_exact cityblock (argpartition_select Z.le) Z.le
           (argpartition_select_contract Z.le));
    [solve_valid|simpl; lia..].
Defined.

(** C2 as stated fails: with [K] equal to the pool size nothing is
    selected and the distances come back in pool order, here [5] before
    [1]. *)
Lemma calculate_distances_unsorted :
  valid_input origin_t unordered_cp 2 ∧
  calculate_distances cityblock (argpartition_select Z.le)
    origin_t unordered_cp (Some 2) 2
  = Ok (NDArray 1 2 [[0; 1]], NDArray 1 2 [[5; 1]]%Z) ∧
  ¬ Sorted Z.le [5; 1]%Z.
Proof.
  split_and!; [solve_valid|by vm_compute|].
  intros H. inversion H as [|? ? _ Hd]. inversion Hd. lia.
Qed.

(** The theorem for C2 as amended, at [ex_t], [ex_cp], [K = 2] and a chunk
    size of three. *)
Lemma calculate_distances_nearest_witness :
  valid_input ex_t ex_cp 3 ∧
  ∃ ids ds,
    calculate_distances cityblock (argpartition_select Z.le) ex_t ex_cp (Some 2) 3
    = Ok (ids, ds) ∧
    ∀ i t, rows ex_t !! i = Some t →
      ∃ ids_i ds_i,
        rows ids !! i = Some ids_i ∧ rows ds !! i = Some ds_i ∧
        ∀ d j x, d ∈ ds_i → rows ex_cp !! j = Some x → j ∉ ids_i →
          (d ≤ cityblock t x)%Z.
Proof.
  split; [solve_valid|].
  apply (calculate_distances_nearest cityblock (argpartition_select Z.le) Z.le
           (argpartition_select_contract Z.le));
    [solve_valid|simpl; lia].
Defined.

(** The theorem for C3 with more matches requested than the pool has
    rows: [K = 5] against the four rows of [ex_cp]. *)
Lemma calculate_distances_size_witness :
  valid_input ex_t ex_cp 3 ∧
  ∃ ids ds,
    calculate_distances cityblock (argpartition_select Z.le) ex_t ex_cp (Some 5) 3
    = Ok (ids, ds) ∧
    length (rows ids) = shape0 ex_t ∧ length (rows ds) = shape0 ex_t ∧
    shape1 ids = min 5 (shape0 ex_cp) ∧ shape1 ds = min 5 (shape0 ex_cp) ∧
    Forall (λ r, length r = min 5 (shape0 ex_cp)) (rows ids) ∧
    Forall (λ r, length r = min 5 (shape0 ex_cp)) (rows ds) ∧
    ∀ i t, rows ex_t !! i = Some t →
      ∃ ids_i ds_i,
        rows ids !! i = Some ids_i ∧ rows ds !! i = Some ds_i ∧
        length ids_i = min 5 (shape0 ex_cp) ∧
        length ds_i = min 5 (shape0 ex_cp) ∧
        NoDup ids_i ∧
        (∀ j idx d, ids_i !! j = Some idx → ds_i !! j = Some d →
           ∃ x, rows ex_cp !! idx = Some x ∧ d = cityblock t x) ∧
        (shape0 ex_cp ≤ 5 →
         ∀ idx x, rows ex_cp !! idx = Some x →
           ∃ j, ids_i !! j = Some idx ∧ ds_i !! j = Some (cityblock t x)).
Proof.
  split; [solve_valid|].
  apply (calculate_distances_size cityblock (argpartition_select Z.le) Z.le
           (argpartition_select_contract Z.le));
    [solve_valid|simpl; lia..].
Defined.



(** The theorem for C5 at the first chunk of [ex_cp] for a chunk size of
    three, with [K = 2]: the chunk has three rows and two are retained. *)
Lemma chunk_step_retains_witness :
  wf_ndarray ex_t ∧ wf_chunk (shape1 ex_t) ex_chunk ∧
  n_chunk_smallest_of (Some 2) 3 = min 2 3 ∧
  ∃ ids ds,
    chunk_step cityblock (argpartition_select Z.le) ex_t (min 2 3) ex_chunk
    = Ok (ids, ds) ∧
    shape1 ids = min (min 2 3) (shape0 ex_chunk.2) ∧
    shape1 ds = min (min 2 3) (shape0 ex_chunk.2) ∧
    (∀ i t, rows ex_t !! i = Some t →
       ∃ ids_i ds_i,
         rows ids !! i = Some ids_i ∧ rows ds !! i = Some ds_i ∧
         length ids_i = min (min 2 3) (shape0 ex_chunk.2) ∧
         length ds_i = min (min 2 3) (shape0 ex_chunk.2) ∧
         smallest_of (le_dist Z.le) (min (min 2 3) (shape0 ex_chunk.2))
           (zip ids_i ds_i) (chunk_candidates cityblock ex_chunk t)) ∧
    (shape0 ex_chunk.2 ≤ min 2 3 →
       ids = np_tile ex_chunk.1 (shape0 ex_t) ∧
       cdist cityblock ex_t ex_chunk.2 = Ok ds).
Proof.
  assert (wf_ndarray ex_t) as Ht by solve_valid.
  assert (wf_chunk (shape1 ex_t) ex_chunk) as Hc by solve_valid.
  split_and!; [done..|].
  apply (chunk_step_retains cityblock (argpartition_select Z.le) Z.le
           (argpartition_select_contract Z.le) ex_t ex_chunk 2 3 Ht Hc).
Defined.

(** C6 does not hold of the code: on a well-formed input whose pool has
    no row the call raises, where the design document promises an empty
    candidate set for every treatment row. *)
Lemma calculate_distances_empty_pool_raises :
  valid_input ex_t empty_cp 3 ∧ shape0 empty_cp = 0 ∧
  calculate_distances cityblock (argpartition_select Z.le) ex_t empty_cp (Some 2) 3
  = Raise (ValueError "need at least one array to concatenate").
Proof.
  split_and!; [solve_valid|done|].
  by apply calculate_distances_empty_pool; [|lia].
Qed.

(** C7 as stated fails: a treatment matrix with no row is not rejected,
    the call returns two arrays with no row. *)
Lemma calculate_distances_accepts_empty_treatment :
  valid_input empty_t ex_cp 3 ∧ shape0 empty_t = 0 ∧
  calculate_distances cityblock (argpartition_select Z.le) empty_t ex_cp (Some 2) 3
  = Ok (NDArray 0 2 [], NDArray 0 2 []).
Proof. split_and!; [solve_valid|done|by vm_compute]. Qed.

(** The theorem for C7 as amended: a three-feature treatment row against
    the two-feature pool [ex_cp], and the empty treatment matrix against
    the same pool. *)
Lemma calculate_distances_no_validation_witness :
  (shape1 wide_t ≠ shape1 ex_cp ∧ rows ex_cp ≠ [] ∧
   ∃ chunk cs,
     chunks ex_cp 3 = Ok (chunk :: cs) ∧
     chunk_step cityblock (argpartition_select Z.le) wide_t
       (n_chunk_smallest_of (Some 2) 3) chunk
     = Raise (ValueError "XA and XB must have the same number of columns (i.e. feature dimension.)") ∧
     calculate_distances cityblock (argpartition_select Z.le) wide_t ex_cp (Some 2) 3
     = Raise (ValueError "XA and XB must have the same number of columns (i.e. feature dimension.)")) ∧
  (valid_input empty_t ex_cp 3 ∧ shape0 empty_t = 0 ∧
   ∃ ids ds,
     calculate_distances cityblock (argpartition_select Z.le) empty_t ex_cp (Some 2) 3
     = Ok (ids, ds) ∧
     shape0 ids = 0 ∧ shape0 ds = 0 ∧ rows ids = [] ∧ rows ds = []).
Proof.
  assert (0 < 3) as HC by lia.
  split.
  - assert (shape1 wide_t ≠ shape1 ex_cp) as Hd by (simpl; lia).
    assert (rows ex_cp ≠ []) as Hne by done.
    split_and!; [done..|].
    exact (proj1 (calculate_distances_no_validation cityblock
                    (argpartition_select Z.le) Z.le
                    (argpartition_select_contract Z.le)
                    wide_t ex_cp (Some 2) 3 HC) Hd Hne).
  - assert (valid_input empty_t ex_cp 3) as Hv by solve_valid.
    assert (0 < shape0 ex_cp) as Hn by (simpl; lia).
    split_and!; [done..|].
    exact (proj2 (calculate_distances_no_validation cityblock
                    (argpartition_select Z.le) Z.le
                    (argpartition_select_contract Z.le)
                    empty_t ex_cp (Some 2) 3 HC) Hv eq_refl Hn).
Defined.

(** The theorem for C8 at [ex_t], [ex_cp], [K = 2] and a chunk size of
    three. *)
Lemma calculate_distances_indices_valid_witness :
  valid_input ex_t ex_cp 3 ∧
  (0 < shape0 ex_cp →
   is_Ok (calculate_distances cityblock (argpartition_select Z.le)
            ex_t ex_cp (Some 2) 3)) ∧
  ∀ ids ds,
    calculate_distances cityblock (argpartition_select Z.le) ex_t ex_cp (Some 2) 3
    = Ok (ids, ds) →
    Forall (Forall (λ j,
      j < shape0 ex_cp ∧ is_Some (rows ex_cp !! j) ∧
      ∃ cs chunk, chunks ex_cp 3 = Ok cs ∧ chunk ∈ cs ∧ j ∈ chunk.1))
      (rows ids).
Proof.
  split; [solve_valid|].
  apply (calculate_distances_indices_valid cityblock
           (argpartition_select Z.le) Z.le
           (argpartition_select_contract Z.le)).
  solve_valid.
Defined.

(** C9 as stated fails: with [K = 2] and a chunk size of one no chunk is
    cut, and the distance buffer that [np.hstack] builds is the full
    [n_t × n_cp] matrix, the one [cdist] gives on the whole pool. *)
Lemma accumulate_materializes_full_matrix :
  valid_input ex_t ex_cp 1 ∧
  ∃ ids dist,
    accumulate cityblock (argpartition_select Z.le) ex_t ex_cp (Some 2) 1
    = Ok (ids, dist) ∧
    cdist cityblock ex_t ex_cp = Ok dist ∧
    shape0 dist = shape0 ex_t ∧ shape1 dist = shape0 ex_cp ∧
    rows dist = [[1; 5; 7; 4]; [6; 4; 0; 3]]%Z.
Proof.
  split; [solve_valid|].
  eexists _, _. split_and!; [by vm_compute|by vm_compute|done..].
Qed.

(** The theorem for C9 as amended, at [ex_t], [ex_cp], [K = 2] and a chunk
    size of three. *)
Lemma accumulate_buffers_witness :
  valid_input ex_t ex_cp 3 ∧
  (∀ chunk, chunk ∈ pool_chunks ex_cp 3 →
     ∃ m, cdist cityblock ex_t chunk.2 = Ok m ∧
          shape0 m = shape0 ex_t ∧ shape1 m = shape0 chunk.2 ∧
          shape0 chunk.2 ≤ 3) ∧
  ∃ ids dist,
    accumulate cityblock (argpartition_select Z.le) ex_t ex_cp (Some 2) 3
    = Ok (ids, dist) ∧
    shape0 dist = shape0 ex_t ∧
    shape1 dist = sum_list ((λ c, min (n_chunk_smallest_of (Some 2) 3) (shape0 c.2))
                              <$> pool_chunks ex_cp 3) ∧
    (3 ≤ n_chunk_smallest_of (Some 2) 3 →
       shape1 dist = shape0 ex_cp ∧ cdist cityblock ex_t ex_cp = Ok dist).
Proof.
  split; [solve_valid|].
  apply (accumulate_buffers cityblock (argpartition_select Z.le) Z.le
           (argpartition_select_contract Z.le));
    [solve_valid|simpl; lia].
Defined.

(** The theorem for C10 at [ex_t], [ex_cp] and a chunk size of three. *)
Lemma calculate_distances_none_witness :
  valid_input ex_t ex_cp 3 ∧
  n_chunk_smallest_of None 3 = 3 ∧
  n_smallest_of None ex_cp = shape0 ex_cp ∧
  (∃ dist, cdist cityblock ex_t ex_cp = Ok dist ∧
     accumulate cityblock (argpartition_select Z.le) ex_t ex_cp None 3
     = Ok (np_tile (np_arange (shape0 ex_cp)) (shape0 ex_t), dist) ∧
     calculate_distances cityblock (argpartition_select Z.le) ex_t ex_cp None 3
     = Ok (np_tile (np_arange (shape0 ex_cp)) (shape0 ex_t), dist)) ∧
  ∀ ids ds,
    calculate_distances cityblock (argpartition_select Z.le) ex_t ex_cp None 3
    = Ok (ids, ds) →
    ∀ i t, rows ex_t !! i = Some t →
      rows ids !! i = Some (seq 0 (shape0 ex_cp)) ∧
      rows ds !! i = Some (cityblock t <$> rows ex_cp).
Proof.
  split; [solve_valid|].
  apply (calculate_distances_none cityblock (argpartition_select Z.le) Z.le
           (argpartition_select_contract Z.le));
    [solve_valid|simpl; lia].
Defined.

(** ** The sorting selection meets the contract *)

Lemma StronglySorted_lookup {A} (R : relation A) (l : list A) i j x y :
  StronglySorted R l → i < j → l !! i = Some x → l !! j = Some y → R x y.
Proof.
  intros Hs. revert i j. induction Hs as [|a l _ IH Hall]; intros i j Hij Hi Hj.
  { done. }
  destruct j as [|j]; [lia|]. destruct i as [|i]; simplify_eq/=.
  - rewrite Forall_forall in Hall. apply Hall.
    by eapply list_elem_of_lookup_2.
  - apply (IH i j); [lia|done..].
Qed.

Section sorting_selection_correct.
Context {D : Type} (le : relation D).
Context `{!RelDecision le, !Transitive le, !Total le}.

Local Instance le_key_trans : Transitive (le_key le).
Proof. intros p q r. unfold le_key. apply transitivity. Qed.

Local Instance le_key_total : Total (le_key le).
Proof. intros p q. unfold le_key. apply total, _. Qed.

Lemma argpartition_sort_contract :
  argpartition_contract le (argpartition_sort le).
Proof.
  intros a kth Hk. unfold argpartition_sort.
  set (l0 := zip a (seq 0 (length a))).
  pose proof (merge_sort_Permutation (le_key le) l0) as Hperm.
  assert (StronglySorted (le_key le) (merge_sort (le_key le) l0)) as Hs.
  { apply (StronglySorted_merge_sort (le_key le)). }
  set (res := merge_sort (le_key le) l0) in *.
  assert (∀ i p, res.*2 !! i = Some p →
    ∃ v, res !! i = Some (v, p) ∧ a !! p = Some v) as Hres.
  { intros i p Hp. rewrite list_lookup_fmap in Hp.
    destruct (res !! i) as [[v p']|] eqn:Hi; simplify_eq/=.
    exists v. split; [done|].
    assert ((v, p) ∈ l0) as Hin.
    { rewrite <- Hperm. by eapply list_elem_of_lookup_2. }
    apply list_elem_of_lookup in Hin as [j Hj]. unfold l0 in Hj.
    apply lookup_zip_with_Some in Hj as (v' & p' & ? & Hv & Hq).
    apply lookup_seq in Hq as [-> _]. by simplify_eq/=. }
  split.
  - rewrite Hperm. unfold l0. rewrite snd_zip; [done|].
    by rewrite length_seq.
  - intros i pi pk x y Hpk Hy Hpi Hx.
    destruct (Hres _ _ Hpk) as (vy & Hry & Hay).
    destruct (Hres _ _ Hpi) as (vx & Hrx & Hax).
    simplify_eq. split; intros Hlt.
    + apply (StronglySorted_lookup (le_key le) res i kth (x, pi) (y, pk)); done.
    + apply (StronglySorted_lookup (le_key le) res kth i (y, pk) (x, pi)); done.
Qed.
End sorting_selection_correct.

(** ** Further properties of [calculate_distances] *)

Section further.
Context {F D : Type}.
Variable metric : list F → list F → D.
Variable argpartition : list D → nat → list nat.
Context (le : relation D) `{!RelDecision le, !Transitive le, !Total le}.
Hypothesis Hcontract : argpartition_contract le argpartition.

(** X1. On valid input with a non-empty pool the two returned arrays are
    aligned: in every treatment row, the distance at a position is the
    distance from that treatment row to the pool row whose index stands at
    the same position of the index array. *)
Theorem calculate_distances_aligned ls_t ls_cp K C :
  valid_input ls_t ls_cp C → 0 < shape0 ls_cp →
  ∃ ids ds,
    calculate_distances metric argpartition ls_t ls_cp K C = Ok (ids, ds) ∧
    ∀ i t, rows ls_t !! i = Some t →
      ∃ ids_i ds_i,
        rows ids !! i = Some ids_i ∧ rows ds !! i = Some ds_i ∧
        length ids_i = length ds_i ∧
        ∀ j idx d, ids_i !! j = Some idx → ds_i !! j = Some d →
          ∃ x, rows ls_cp !! idx = Some x ∧ d = metric t x.
Proof.
  intros Hv Hn.
  destruct (calculate_distances_correct metric argpartition le Hcontract
              ls_t ls_cp K C Hv Hn)
    as (ids & ds & Hcd & _ & _ & _ & _ & _ & _ & Hrows).
  exists ids, ds. split; [done|]. intros i t Ht.
  destruct (Hrows i t Ht) as (ids_i & ds_i & Hi & Hd & Hl1 & Hl2 & Hsm).
  exists ids_i, ds_i. split_and!; [done|done|lia|].
  destruct Hsm as (_ & rest & Hall & _).
  by apply (candidates_of_pool metric ls_cp t ids_i ds_i rest); [|lia].
Qed.

(** X2. On valid input with a non-empty pool no pool row is returned
    twice for one treatment row: the indices of every row of the index
    array are pairwise distinct. *)
Theorem calculate_distances_distinct ls_t ls_cp K C :
  valid_input ls_t ls_cp C → 0 < shape0 ls_cp →
  ∃ ids ds,
    calculate_distances metric argpartition ls_t ls_cp K C = Ok (ids, ds) ∧
    Forall (λ r, NoDup r) (rows ids).
Proof.
  intros Hv Hn.
  destruct (calculate_distances_correct metric argpartition le Hcontract
              ls_t ls_cp K C Hv Hn)
    as (ids & ds & Hcd & _ & _ & _ & _ & Hl1 & _ & Hrows).
  exists ids, ds. split; [done|].
  apply Forall_lookup. intros i r Hr.
  destruct (lookup_lt_is_Some_2 (rows ls_t) i) as [t Ht].
  { rewrite (proj1 (proj1 Hv)), <- Hl1. by eapply lookup_lt_Some. }
  destruct (Hrows i t Ht) as (ids_i & ds_i & Hi & _ & Hli & Hld & Hsm).
  assert (ids_i = r) as -> by congruence.
  destruct Hsm as (_ & rest & Hall & _).
  by apply (candidates_of_pool metric ls_cp t r ds_i rest); [|lia].
Qed.

(** X4. Zero matches requested is not rejected: on valid input with a
    non-empty pool the call returns two arrays of [n_t] rows with no
    entry. *)
Theorem calculate_distances_zero_matches ls_t ls_cp C :
  valid_input ls_t ls_cp C → 0 < shape0 ls_cp →
  calculate_distances metric argpartition ls_t ls_cp (Some 0) C
  = Ok (NDArray (shape0 ls_t) 0 (replicate (shape0 ls_t) []),
        NDArray (shape0 ls_t) 0 (replicate (shape0 ls_t) [])).
Proof.
  intros Hv Hn.
  destruct (calculate_distances_correct metric argpartition le Hcontract
              ls_t ls_cp (Some 0) C Hv Hn)
    as (ids & ds & Hcd & Hs1 & Hs2 & Hw1 & Hw2 & Hl1 & Hl2 & Hrows).
  rewrite Hcd. rewrite n_smallest_min in *. simpl in Hw1, Hw2, Hrows.
  assert (∀ i, i < shape0 ls_t →
    rows ids !! i = Some [] ∧ rows ds !! i = Some []) as Hnil.
  { intros i Hi. destruct (lookup_lt_is_Some_2 (rows ls_t) i) as [t Ht].
    { by rewrite (proj1 (proj1 Hv)). }
    destruct (Hrows i t Ht) as (ids_i & ds_i & -> & -> & H1 & H2 & _).
    by rewrite (nil_length_inv _ H1), (nil_length_inv _ H2). }
  destruct ids as [n1 w1 r1], ds as [n2 w2 r2]. simpl in *. subst.
  do 2 f_equal; f_equal; apply list_eq; intros i;
    destruct (decide (i < shape0 ls_t)) as [Hi|Hi].
  - rewrite lookup_replicate_2 by done. by apply Hnil.
  - rewrite !lookup_ge_None_2; [done|rewrite length_replicate; lia|lia].
  - rewrite lookup_replicate_2 by done. by apply Hnil.
  - rewrite !lookup_ge_None_2; [done|rewrite length_replicate; lia|lia].
Qed.

(** A dimensionality mismatch against a non-empty pool: [cdist] raises on
    the first chunk. *)
Lemma calculate_distances_mismatch ls_t ls_cp K C :
  0 < C → shape1 ls_t ≠ shape1 ls_cp → rows ls_cp ≠ [] →
  calculate_distances metric argpartition ls_t ls_cp K C
  = Raise (ValueError "XA and XB must have the same number of columns (i.e. feature dimension.)").
Proof.
  intros HC Hd Hne. destruct (rows ls_cp) as [|r rs] eqn:Hrows; [done|].
  unfold calculate_distances, accumulate.
  rewrite chunks_pool by done. unfold pool_chunks. rewrite Hrows.
  cbn [length chunks_from mbind result_bind chunk_loop].
  unfold chunk_step, cdist. cbn [shape1].
  by rewrite decide_False by done.
Qed.

(** X5. The outcome of the call, for the inputs the model covers: [K] is
    [None] or a count (a non-negative integer) and the metric is one that
    [cdist] evaluates on every pair of rows.  A negative [K] and an
    unknown metric name have error paths of their own, at lines 23 and
    18, and are outside this statement.  For such inputs, well-formed
    matrices and a positive chunk size:
    - with an empty pool the loop appends nothing and [np.hstack] raises
      at line 30, whatever the treatment matrix and [K];
    - with a non-empty pool and different numbers of columns [cdist]
      raises on the first chunk, at line 18;
    - otherwise the call returns, also for [n_t = 0] and for [K = 0];
    so the call returns exactly when the pool has a row and the two
    matrices have the same number of columns. *)
Theorem calculate_distances_succeeds_iff ls_t ls_cp K C :
  wf_ndarray ls_t → wf_ndarray ls_cp → 0 < C →
  (shape0 ls_cp = 0 →
   calculate_distances metric argpartition ls_t ls_cp K C
   = Raise (ValueError "need at least one array to concatenate")) ∧
  (0 < shape0 ls_cp → shape1 ls_t ≠ shape1 ls_cp →
   calculate_distances metric argpartition ls_t ls_cp K C
   = Raise (ValueError "XA and XB must have the same number of columns (i.e. feature dimension.)")) ∧
  (is_Ok (calculate_distances metric argpartition ls_t ls_cp K C) ↔
   0 < shape0 ls_cp ∧ shape1 ls_t = shape1 ls_cp).
Proof.
  intros Ht Hcp HC.
  assert (shape0 ls_cp = 0 →
          calculate_distances metric argpartition ls_t ls_cp K C
          = Raise (ValueError "need at least one array to concatenate"))
    as Hempty.
  { intros Hn. apply calculate_distances_empty_pool; [|done].
    apply nil_length_inv. destruct Hcp as [-> _]. done. }
  assert (0 < shape0 ls_cp → shape1 ls_t ≠ shape1 ls_cp →
          calculate_distances metric argpartition ls_t ls_cp K C
          = Raise (ValueError "XA and XB must have the same number of columns (i.e. feature dimension.)"))
    as Hmis.
  { intros Hn Hd. apply calculate_distances_mismatch; [done..|].
    intros Hnil. destruct Hcp as [Hl _]. rewrite Hnil in Hl. simpl in Hl. lia. }
  split_and!; [done|done|]. split.
  - intros [res Hres].
    destruct (decide (0 < shape0 ls_cp)) as [Hn|Hn].
    + split; [done|].
      destruct (decide (shape1 ls_t = shape1 ls_cp)) as [|Hd]; [done|].
      by rewrite Hmis in Hres.
    + rewrite Hempty in Hres by lia. done.
  - intros [Hn Hd].
    destruct (calculate_distances_correct metric argpartition le Hcontract
                ls_t ls_cp K C) as (ids & ds & Hcd & _); [done..|].
    by eexists.
Qed.

(** X7. Treatment rows are handled independently of one another: on
    valid input with a non-empty pool, the row returned for a treatment
    row is the row the call returns when that treatment row is the whole
    treatment matrix. *)
Theorem calculate_distances_row_independent ls_t ls_cp K C :
  valid_input ls_t ls_cp C → 0 < shape0 ls_cp →
  ∃ ids ds,
    calculate_distances metric argpartition ls_t ls_cp K C = Ok (ids, ds) ∧
    ∀ i t, rows ls_t !! i = Some t →
      ∃ ids_i ds_i,
        rows ids !! i = Some ids_i ∧ rows ds !! i = Some ds_i ∧
        calculate_distances metric argpartition
          (NDArray 1 (shape1 ls_t) [t]) ls_cp K C
        = Ok (NDArray 1 (shape1 ids) [ids_i], NDArray 1 (shape1 ds) [ds_i]).
Proof.
  intros (Ht & Hcp & Hd & HC) Hn.
  eexists _, _. split.
  { by apply (calculate_distances_rowwise metric argpartition le Hcontract). }
  cbn [shape0 shape1 rows]. intros i t Hi.
  eexists _, _. rewrite !list_lookup_fmap, Hi. csimpl.
  split_and!; [done..|].
  rewrite (calculate_distances_rowwise metric argpartition le Hcontract);
    [done| |done..].
  split; [done|]. cbn [rows shape1]. constructor; [|done].
  destruct Ht as [_ Hcols]. by apply (Forall_lookup_1 _ _ _ _ Hcols Hi).
Qed.

Lemma chunks_from_le {A} fuel start d (rs : list (list A)) n :
  Forall (λ c, shape0 c.2 ≤ length rs) (chunks_from fuel start d rs n).
Proof.
  revert start rs. induction fuel as [|fuel IH]; intros start rs; [done|].
  destruct rs as [|r rs]; [done|]. cbn [chunks_from]. constructor.
  - cbn [snd shape0]. rewrite length_take. lia.
  - eapply Forall_impl; [apply IH|]. intros c Hc. simpl in Hc.
    rewrite length_drop in Hc. lia.
Qed.

(** When no chunk has more rows than the per-chunk target count, the
    buffers hold every pool row, in pool order. *)
Lemma acc_row_uncut ls_cp M C t :
  wf_ndarray ls_cp → 0 < C →
  Forall (λ c, shape0 c.2 ≤ M) (pool_chunks ls_cp C) →
  acc_row metric argpartition M (pool_chunks ls_cp C) t
  = (seq 0 (length (rows ls_cp)), metric t <$> rows ls_cp).
Proof.
  intros Hcp HC HM.
  assert (∀ i c, pool_chunks ls_cp C !! i = Some c →
    chunk_row metric argpartition M c t = (c.1, metric t <$> rows c.2))
    as Hfull.
  { intros i c Hc. apply (Forall_lookup_1 _ _ _ _ HM) in Hc.
    unfold chunk_row. by rewrite decide_False by lia. }
  unfold acc_row. f_equal.
  - rewrite <- (chunks_from_indices (length (rows ls_cp)) 0 (shape1 ls_cp)
                  (rows ls_cp) C) by done.
    f_equal. apply list_fmap_ext. intros i c Hc. by rewrite (Hfull i c Hc).
  - rewrite <- (chunks_from_rows (length (rows ls_cp)) 0 (shape1 ls_cp)
                  (rows ls_cp) C) at 1 by done.
    rewrite <- fmap_concat_fmap.
    f_equal. apply list_fmap_ext. intros i c Hc. by rewrite (Hfull i c Hc).
Qed.

(** When neither stage has anything to cut, the call returns every pool
    row for every treatment row, in pool order. *)
Lemma calculate_distances_uncut ls_t ls_cp K C :
  valid_input ls_t ls_cp C → 0 < shape0 ls_cp →
  Forall (λ c, shape0 c.2 ≤ n_chunk_smallest_of K C) (pool_chunks ls_cp C) →
  shape0 ls_cp ≤ n_smallest_of K ls_cp →
  calculate_distances metric argpartition ls_t ls_cp K C
  = Ok (np_tile (np_arange (shape0 ls_cp)) (shape0 ls_t),
        NDArray (shape0 ls_t) (shape0 ls_cp)
          ((λ a, metric a <$> rows ls_cp) <$> rows ls_t)).
Proof.
  intros (Ht & Hcp & Hd & HC) Hn HM HK.
  rewrite (calculate_distances_rowwise metric argpartition le Hcontract)
    by done.
  assert (acc_width ls_cp K C = shape0 ls_cp) as HW.
  { destruct (acc_row_length metric argpartition le Hcontract ls_cp K C []
                Hcp) as [_ <-].
    rewrite acc_row_uncut by done. cbn [snd].
    rewrite length_fmap. apply Hcp. }
  assert (¬ n_smallest_of K ls_cp < shape0 ls_cp) as HK' by lia.
  assert (∀ t, row_result metric argpartition ls_cp K C t
               = (seq 0 (shape0 ls_cp), metric t <$> rows ls_cp)) as Hrow.
  { intros t. unfold row_result. rewrite acc_row_uncut, HW by done.
    unfold final_row. cbn [fst snd]. rewrite decide_False by done.
    rewrite <- (proj1 Hcp).
    rewrite !sel_arange_length; [done|by rewrite length_fmap|].
    by rewrite length_seq. }
  rewrite HW. unfold final_width, np_tile, np_arange.
  rewrite decide_False by done. rewrite length_seq.
  destruct Ht as [Hlt _]. do 2 f_equal.
  - f_equal. rewrite <- Hlt, replicate_length_fmap.
    apply list_fmap_ext. intros i t _. by rewrite Hrow.
  - f_equal. apply list_fmap_ext. intros i t _. by rewrite Hrow.
Qed.

(** X3. Asking for at least as many matches as the pool has rows is the
    same as asking for all of them: on valid input with a non-empty pool
    and [K >= n_cp], the call with [K] returns what the call with [None]
    returns, every pool row in pool order. *)
Theorem calculate_distances_whole_pool ls_t ls_cp K C :
  valid_input ls_t ls_cp C → 0 < shape0 ls_cp → shape0 ls_cp ≤ K →
  calculate_distances metric argpartition ls_t ls_cp (Some K) C
  = calculate_distances metric argpartition ls_t ls_cp None C ∧
  calculate_distances metric argpartition ls_t ls_cp (Some K) C
  = Ok (np_tile (np_arange (shape0 ls_cp)) (shape0 ls_t),
        NDArray (shape0 ls_t) (shape0 ls_cp)
          ((λ a, metric a <$> rows ls_cp) <$> rows ls_t)).
Proof.
  intros Hv Hn HK. pose proof Hv as (Ht & Hcp & Hd & HC).
  pose proof (pool_chunks_wf ls_cp C Hcp) as Hwf.
  pose proof (chunks_from_le (length (rows ls_cp)) 0 (shape1 ls_cp)
                (rows ls_cp) C) as Hle.
  fold (pool_chunks ls_cp C) in Hle. rewrite (proj1 Hcp) in Hle.
  rewrite Forall_forall in Hwf, Hle.
  rewrite !calculate_distances_uncut; [done|done|done| | |done|done| |].
  - apply Forall_forall. intros c Hc. destruct (Hwf c Hc) as [_ HcC].
    by cbn [n_chunk_smallest_of].
  - by cbn [n_smallest_of].
  - apply Forall_forall. intros c Hc. destruct (Hwf c Hc) as [_ HcC].
    specialize (Hle c Hc). rewrite n_chunk_smallest_min. lia.
  - rewrite n_smallest_min. lia.
Qed.

(** The buffers hold pool candidates, none of them twice. *)
Lemma acc_row_of_pool ls_cp K C t :
  wf_ndarray ls_cp → 0 < C →
  ∃ dropped,
    brute_force_row metric ls_cp t
    ≡ₚ zip (acc_row metric argpartition (n_chunk_smallest_of K C)
              (pool_chunks ls_cp C) t).1
           (acc_row metric argpartition (n_chunk_smallest_of K C)
              (pool_chunks ls_cp C) t).2 ++ dropped.
Proof.
  intros Hcp HC. pose proof (pool_chunks_wf ls_cp C Hcp) as Hwf.
  set (M := n_chunk_smallest_of K C).
  set (cs := pool_chunks ls_cp C) in *.
  set (kept := λ c, zip (chunk_row metric argpartition M c t).1
                        (chunk_row metric argpartition M c t).2).
  assert (zip (acc_row metric argpartition M cs t).1
              (acc_row metric argpartition M cs t).2
          = mjoin (kept <$> cs)) as ->.
  { unfold acc_row. cbn [fst snd]. apply zip_concat.
    eapply Forall_impl; [exact Hwf|].
    intros c [(Hidx & [Hrows _] & _) _]. simpl.
    destruct (chunk_row_length metric argpartition le Hcontract M c t
                Hidx Hrows) as [-> ->]. done. }
  destruct (concat_kept_dropped (le_dist le) 0 M
              ((λ c, (kept c, chunk_candidates metric c t)) <$> cs))
    as (dropped & Hperm & _).
  { apply Forall_fmap. eapply Forall_impl; [exact Hwf|].
    intros c [(Hidx & [Hrows _] & _) _]. cbn [compose fst snd].
    split; [by apply chunk_row_smallest|lia]. }
  assert (((λ c, (kept c, chunk_candidates metric c t)) <$> cs).*1
          = kept <$> cs) as E1 by (by rewrite <- list_fmap_compose).
  assert (((λ c, (kept c, chunk_candidates metric c t)) <$> cs).*2
          = (λ c, chunk_candidates metric c t) <$> cs)
    as E2 by (by rewrite <- list_fmap_compose).
  rewrite E1, E2 in Hperm. exists dropped.
  rewrite (brute_force_chunks metric ls_cp C t HC); [exact Hperm|].
  eapply Forall_impl; [exact Hwf|].
  intros c [(Hidx & [Hrows _] & _) _]. simpl. lia.
Qed.

(** X10. The loop keeps its two buffers in step.  On valid input with a
    non-empty pool, after [np.hstack] the index buffer and the distance
    buffer have the same shape, at most [n_cp] columns wide; in every row
    the indices are pairwise distinct and the distance at a position is
    the distance to the pool row whose index stands at that position. *)
Theorem accumulate_aligned ls_t ls_cp K C :
  valid_input ls_t ls_cp C → 0 < shape0 ls_cp →
  ∃ ids dist,
    accumulate metric argpartition ls_t ls_cp K C = Ok (ids, dist) ∧
    shape0 ids = shape0 dist ∧ shape1 ids = shape1 dist ∧
    shape1 dist ≤ shape0 ls_cp ∧
    ∀ i t, rows ls_t !! i = Some t →
      ∃ ids_i dist_i,
        rows ids !! i = Some ids_i ∧ rows dist !! i = Some dist_i ∧
        length ids_i = shape1 ids ∧ length dist_i = shape1 dist ∧
        NoDup ids_i ∧
        ∀ j idx d, ids_i !! j = Some idx → dist_i !! j = Some d →
          ∃ x, rows ls_cp !! idx = Some x ∧ d = metric t x.
Proof.
  intros (Ht & Hcp & Hd & HC) Hn.
  eexists _, _. split.
  { by apply (accumulate_rowwise metric argpartition le Hcontract). }
  cbn [shape0 shape1 rows]. split_and!; [done..| |].
  - destruct (acc_row_length metric argpartition le Hcontract ls_cp K C []
                Hcp) as [Hl1 Hl2].
    destruct (acc_row_of_pool ls_cp K C [] Hcp HC) as [dropped Hperm].
    apply Permutation_length in Hperm.
    rewrite length_brute_force_row, length_app, length_zip, Hl1, Hl2 in Hperm.
    destruct Hcp as [<- _]. lia.
  - intros i t Hi. eexists _, _. rewrite !list_lookup_fmap, Hi. csimpl.
    destruct (acc_row_length metric argpartition le Hcontract ls_cp K C t
                Hcp) as [Hl1 Hl2].
    destruct (acc_row_of_pool ls_cp K C t Hcp HC) as [dropped Hperm].
    destruct (candidates_of_pool metric ls_cp t _ _ dropped Hperm)
      as [Hnd Hal]; [lia|].
    split_and!; done.
Qed.
End further.

Lemma chunks_from_nil {A} fuel start d n :
  chunks_from fuel start d (@nil (list A)) n = [].
Proof. by destruct fuel. Qed.

Lemma zip_with_sel_arange {A} (rs : list (list A)) (W : nat) :
  Forall (λ r, length r = W) rs →
  zip_with sel rs (replicate (length rs) (np_arange W)) = rs.
Proof.
  induction 1 as [|r rs Hr _ IH]; [done|]. csimpl.
  by rewrite IH, sel_arange_length.
Qed.

Section stages.
Context {F D : Type}.
Variable metric : list F → list F → D.
Variable argpartition : list D → nat → list nat.

(** A chunk size that covers the pool gives one chunk: the whole pool. *)
Lemma pool_chunks_single (ls_cp : ndarray F) C :
  length (rows ls_cp) ≤ C → rows ls_cp ≠ [] →
  pool_chunks ls_cp C
  = [(seq 0 (length (rows ls_cp)),
      NDArray (length (rows ls_cp)) (shape1 ls_cp) (rows ls_cp))].
Proof.
  intros HC Hne. unfold pool_chunks.
  destruct (rows ls_cp) as [|r rs] eqn:Hrows; [done|].
  cbn [length chunks_from].
  rewrite take_ge, drop_ge by done. by rewrite chunks_from_nil.
Qed.

(** A chunk with no more rows than the target count goes through the
    loop body whole, whatever the count is. *)
Lemma chunk_step_uncut ls_t M (chunk : list nat * ndarray F) :
  shape0 chunk.2 ≤ M →
  chunk_step metric argpartition ls_t M chunk
  = (d ← cdist metric ls_t chunk.2; Ok (np_tile chunk.1 (shape0 d), d)).
Proof.
  intros HM. destruct chunk as [idx m]. cbn [fst snd] in *.
  unfold chunk_step, cdist. case_decide; [|done].
  cbn [mbind result_bind shape0 shape1]. by rewrite decide_False by lia.
Qed.

(** X6. Chunk sizes that cover the whole pool are interchangeable: for a
    well-formed pool and two positive chunk sizes that are both at least
    [n_cp], the two calls have the same outcome, the same arrays entry
    for entry or the same error, for every treatment matrix and every
    [K]. *)
Theorem calculate_distances_large_chunks ls_t ls_cp K C1 C2 :
  wf_ndarray ls_cp → 0 < C1 → 0 < C2 →
  shape0 ls_cp ≤ C1 → shape0 ls_cp ≤ C2 →
  calculate_distances metric argpartition ls_t ls_cp K C1
  = calculate_distances metric argpartition ls_t ls_cp K C2.
Proof.
  intros [Hl _] HC1 HC2 Hn1 Hn2.
  destruct (decide (rows ls_cp = [])) as [Hnil|Hne].
  { by rewrite !calculate_distances_empty_pool. }
  unfold calculate_distances, accumulate.
  rewrite !chunks_pool, !pool_chunks_single by (done || lia).
  cbn [mbind result_bind chunk_loop].
  destruct (decide (n_chunk_smallest_of K C1 = n_chunk_smallest_of K C2))
    as [->|Hne']; [done|].
  rewrite !chunk_step_uncut; [done|..]; cbn [snd shape0];
    unfold n_chunk_smallest_of in *; destruct K; repeat case_decide; lia.
Qed.

(** X9. The final selection leaves alone what it has no reason to cut.
    For an index buffer and a distance buffer of one well-formed shape
    with at most [n_smallest] columns, lines 33 to 41 return the two
    buffers unchanged: same entries, same order. *)
Theorem final_select_keeps (ids : ndarray nat) (dist : ndarray D) n_smallest :
  wf_ndarray ids → wf_ndarray dist →
  shape0 ids = shape0 dist → shape1 ids = shape1 dist →
  shape1 dist ≤ n_smallest →
  final_select argpartition n_smallest (ids, dist) = Ok (ids, dist).
Proof.
  intros [Hi1 Hi2] [Hd1 Hd2] H0 H1 HK.
  destruct ids as [n w ri], dist as [n' w' rd].
  cbn [shape0 shape1 rows] in *. subst n' w' n.
  assert (length ri = length rd) as E by lia.
  pose proof (zip_with_sel_arange ri w Hi2) as E1. rewrite E in E1.
  pose proof (zip_with_sel_arange rd w Hd2) as E2.
  assert (Forall (Forall (λ j, j < w))
            (replicate (length rd) (np_arange w))) as Hb.
  { apply Forall_replicate, Forall_seq. lia. }
  unfold final_select. cbn [shape0 shape1].
  rewrite decide_False by lia. cbn [mbind result_bind].
  unfold take_along, np_tile. cbn [shape0 shape1 rows].
  rewrite !decide_True by (done || lia). cbn [mbind result_bind].
  rewrite E1, E2. unfold np_arange. rewrite length_seq. by rewrite E.
Qed.
End stages.

Section two_selections.
Context {F D : Type}.
Variable metric : list F → list F → D.
Variables argpartition1 argpartition2 : list D → nat → list nat.
Context (le : relation D).
Context `{!RelDecision le, !Transitive le, !Total le, !AntiSymm (=) le}.
Hypothesis Hcontract1 : argpartition_contract le argpartition1.
Hypothesis Hcontract2 : argpartition_contract le argpartition2.

(** X8. The returned distances do not depend on how [np.argpartition]
    orders what it keeps.  With two partial selections that both meet
    numpy's contract, on valid input with a non-empty pool, both calls
    return, every treatment row gets the same multiset of distances from
    both, and the same set of (row index, distance) pairs when the
    distances from that row to the pool rows are pairwise distinct. *)
Theorem calculate_distances_selection_independent ls_t ls_cp K C :
  valid_input ls_t ls_cp C → 0 < shape0 ls_cp →
  ∃ ids1 ds1 ids2 ds2,
    calculate_distances metric argpartition1 ls_t ls_cp K C = Ok (ids1, ds1) ∧
    calculate_distances metric argpartition2 ls_t ls_cp K C = Ok (ids2, ds2) ∧
    ∀ i t, rows ls_t !! i = Some t →
      ∃ ids1_i ds1_i ids2_i ds2_i,
        rows ids1 !! i = Some ids1_i ∧ rows ds1 !! i = Some ds1_i ∧
        rows ids2 !! i = Some ids2_i ∧ rows ds2 !! i = Some ds2_i ∧
        ds1_i ≡ₚ ds2_i ∧
        (NoDup (metric t <$> rows ls_cp) →
         zip ids1_i ds1_i ≡ₚ zip ids2_i ds2_i).
Proof.
  intros Hv Hn.
  destruct (calculate_distances_correct metric argpartition1 le Hcontract1
              ls_t ls_cp K C Hv Hn)
    as (ids1 & ds1 & Hcd1 & _ & _ & _ & _ & _ & _ & Hrows1).
  destruct (calculate_distances_correct metric argpartition2 le Hcontract2
              ls_t ls_cp K C Hv Hn)
    as (ids2 & ds2 & Hcd2 & _ & _ & _ & _ & _ & _ & Hrows2).
  exists ids1, ds1, ids2, ds2. split_and!; [done..|]. intros i t Ht.
  destruct (Hrows1 i t Ht) as (ids1_i & ds1_i & ? & ? & Hl1 & Hl1' & Hsm1).
  destruct (Hrows2 i t Ht) as (ids2_i & ds2_i & ? & ? & Hl2 & Hl2' & Hsm2).
  exists ids1_i, ds1_i, ids2_i, ds2_i. split_and!; [done..| |].
  - pose proof (smallest_of_snd le _ _ _ Hsm1) as Hd1.
    pose proof (smallest_of_snd le _ _ _ Hsm2) as Hd2.
    rewrite snd_zip in Hd1, Hd2 by lia.
    by eapply (smallest_of_unique le).
  - intros Hnd. eapply (smallest_of_unique_pairs le); [|done..].
    unfold brute_force_row. rewrite snd_zip; [done|].
    rewrite length_seq, length_fmap. lia.
Qed.
End two_selections.

Section more_matches.
Context {F D : Type}.
Variable metric : list F → list F → D.
Variable argpartition : list D → nat → list nat.
Context (le : relation D).
Context `{!RelDecision le, !Transitive le, !Total le, !AntiSymm (=) le}.
Hypothesis Hcontract : argpartition_contract le argpartition.

(** The distances of a row of nearest candidates are the first entries
    of the sorted distances to the whole pool. *)
Lemma nearest_distances_sorted_prefix (ls_cp : ndarray F) t k
    (ids : list nat) (ds : list D) :
  length ids = length ds →
  smallest_of (le_dist le) k (zip ids ds) (brute_force_row metric ls_cp t) →
  ds ≡ₚ take k (merge_sort le (metric t <$> rows ls_cp)).
Proof.
  intros Hlen Hsm. apply smallest_of_snd in Hsm.
  rewrite snd_zip in Hsm by lia. unfold brute_force_row in Hsm.
  rewrite snd_zip in Hsm by (rewrite length_seq, length_fmap; lia).
  eapply (smallest_of_unique le); [exact Hsm|].
  eapply (smallest_of_Permutation le); [apply (merge_sort_Permutation le)|].
  apply (smallest_of_take_sorted le).
  by apply StronglySorted_merge_sort.
Qed.

(** X11. Asking for more matches never loses a distance.  On valid input
    with a non-empty pool and [K <= K'], both calls return and, for every
    treatment row, the distances returned for [K] are contained, as a
    multiset, in the distances returned for [K']. *)
Theorem calculate_distances_more_matches ls_t ls_cp K K' C :
  valid_input ls_t ls_cp C → 0 < shape0 ls_cp → K ≤ K' →
  ∃ ids ds ids' ds',
    calculate_distances metric argpartition ls_t ls_cp (Some K) C = Ok (ids, ds) ∧
    calculate_distances metric argpartition ls_t ls_cp (Some K') C = Ok (ids', ds') ∧
    ∀ i t, rows ls_t !! i = Some t →
      ∃ ds_i ds'_i,
        rows ds !! i = Some ds_i ∧ rows ds' !! i = Some ds'_i ∧
        ds_i ⊆+ ds'_i.
Proof.
  intros Hv Hn HK.
  destruct (calculate_distances_correct metric argpartition le Hcontract
              ls_t ls_cp (Some K) C Hv Hn)
    as (ids & ds & Hcd & _ & _ & _ & _ & _ & _ & Hrows).
  destruct (calculate_distances_correct metric argpartition le Hcontract
              ls_t ls_cp (Some K') C Hv Hn)
    as (ids' & ds' & Hcd' & _ & _ & _ & _ & _ & _ & Hrows').
  exists ids, ds, ids', ds'. split_and!; [done..|]. intros i t Ht.
  destruct (Hrows i t Ht) as (ids_i & ds_i & _ & Hd & Hl1 & Hl2 & Hsm).
  destruct (Hrows' i t Ht) as (ids'_i & ds'_i & _ & Hd' & Hl1' & Hl2' & Hsm').
  exists ds_i, ds'_i. split_and!; [done..|].
  rewrite (nearest_distances_sorted_prefix ls_cp t _ ids_i ds_i) by (done || lia).
  rewrite (nearest_distances_sorted_prefix ls_cp t _ ids'_i ds'_i)
    by (done || lia).
  rewrite !n_smallest_min.
  set (l := merge_sort le (metric t <$> rows ls_cp)).
  replace (take (K `min` shape0 ls_cp) l)
    with (take (K `min` shape0 ls_cp) (take (K' `min` shape0 ls_cp) l)).
  - apply sublist_submseteq, sublist_take.
  - rewrite take_take. f_equal. lia.
Qed.
End more_matches.

(** ** The further properties on concrete inputs *)

(** The theorem for X1 at [ex_t], [ex_cp], [K = 2] and a chunk size of
    three. *)
Lemma calculate_distances_aligned_witness :
  valid_input ex_t ex_cp 3 ∧
  ∃ ids ds,
    calculate_distances cityblock (argpartition_select Z.le) ex_t ex_cp (Some 2) 3
    = Ok (ids, ds) ∧
    ∀ i t, rows ex_t !! i = Some t →
      ∃ ids_i ds_i,
        rows ids !! i = Some ids_i ∧ rows ds !! i = Some ds_i ∧
        length ids_i = length ds_i ∧
        ∀ j idx d, ids_i !! j = Some idx → ds_i !! j = Some d →
          ∃ x, rows ex_cp !! idx = Some x ∧ d = cityblock t x.
Proof.
  split; [solve_valid|].
  apply (calculate_distances_aligned cityblock (argpartition_select Z.le) Z.le
           (argpartition_select_contract Z.le));
    [solve_valid|simpl; lia].
Defined.

(** The theorem for X2 on the pool with a tie, where the two tied rows
    compete for one place. *)
Lemma calculate_distances_distinct_witness :
  valid_input origin_t tied_cp 3 ∧
  ∃ ids ds,
    calculate_distances cityblock (argpartition_select Z.le)
      origin_t tied_cp (Some 3) 3
    = Ok (ids, ds) ∧
    Forall (λ r, NoDup r) (rows ids).
Proof.
  split; [solve_valid|].
  apply (calculate_distances_distinct cityblock (argpartition_select Z.le) Z.le
           (argpartition_select_contract Z.le));
    [solve_valid|simpl; lia].
Defined.

(** The theorem for X3 with six matches requested of the four rows of
    [ex_cp]. *)
Lemma calculate_distances_whole_pool_witness :
  valid_input ex_t ex_cp 3 ∧
  calculate_distances cityblock (argpartition_select Z.le) ex_t ex_cp (Some 6) 3
  = calculate_distances cityblock (argpartition_select Z.le) ex_t ex_cp None 3 ∧
  calculate_distances cityblock (argpartition_select Z.le) ex_t ex_cp (Some 6) 3
  = Ok (np_tile (np_arange (shape0 ex_cp)) (shape0 ex_t),
        NDArray (shape0 ex_t) (shape0 ex_cp)
          ((λ a, cityblock a <$> rows ex_cp) <$> rows ex_t)).
Proof.
  split; [solve_valid|].
  apply (calculate_distances_whole_pool cityblock (argpartition_select Z.le)
           Z.le (argpartition_select_contract Z.le));
    [solve_valid|simpl; lia..].
Defined.

(** The theorem for X4 at [ex_t] and [ex_cp]. *)
Lemma calculate_distances_zero_matches_witness :
  valid_input ex_t ex_cp 3 ∧
  calculate_distances cityblock (argpartition_select Z.le) ex_t ex_cp (Some 0) 3
  = Ok (NDArray (shape0 ex_t) 0 (replicate (shape0 ex_t) []),
        NDArray (shape0 ex_t) 0 (replicate (shape0 ex_t) [])).
Proof.
  split; [solve_valid|].
  apply (calculate_distances_zero_matches cityblock (argpartition_select Z.le)
           Z.le (argpartition_select_contract Z.le));
    [solve_valid|simpl; lia].
Defined.

(** The theorem for X5 at the three-feature row [wide_t] against the
    two-feature pool [ex_cp]: the pool has rows, the numbers of columns
    differ. *)
Lemma calculate_distances_succeeds_iff_witness :
  wf_ndarray wide_t ∧ wf_ndarray ex_cp ∧
  (shape0 ex_cp = 0 →
   calculate_distances cityblock (argpartition_select Z.le) wide_t ex_cp (Some 2) 3
   = Raise (ValueError "need at least one array to concatenate")) ∧
  (0 < shape0 ex_cp → shape1 wide_t ≠ shape1 ex_cp →
   calculate_distances cityblock (argpartition_select Z.le) wide_t ex_cp (Some 2) 3
   = Raise (ValueError "XA and XB must have the same number of columns (i.e. feature dimension.)")) ∧
  (is_Ok (calculate_distances cityblock (argpartition_select Z.le)
            wide_t ex_cp (Some 2) 3) ↔
   0 < shape0 ex_cp ∧ shape1 wide_t = shape1 ex_cp).
Proof.
  assert (wf_ndarray wide_t) as Hw by solve_valid.
  assert (wf_ndarray ex_cp) as Hcp by solve_valid.
  assert (0 < 3) as HC by lia.
  split_and!; [done|done|..];
    apply (calculate_distances_succeeds_iff cityblock
             (argpartition_select Z.le) Z.le
             (argpartition_select_contract Z.le) wide_t ex_cp (Some 2) 3
             Hw Hcp HC).
Defined.

(** The theorem for X6 at [ex_t] and [ex_cp] with the chunk sizes four and
    seven. *)
Lemma calculate_distances_large_chunks_witness :
  wf_ndarray ex_cp ∧ shape0 ex_cp ≤ 4 ∧ shape0 ex_cp ≤ 7 ∧
  calculate_distances cityblock (argpartition_select Z.le) ex_t ex_cp (Some 2) 4
  = calculate_distances cityblock (argpartition_select Z.le) ex_t ex_cp (Some 2) 7.
Proof.
  assert (wf_ndarray ex_cp) as Hcp by solve_valid.
  split_and!; [done|simpl; lia..|].
  apply (calculate_distances_large_chunks cityblock (argpartition_select Z.le)
           ex_t ex_cp (Some 2) 4 7 Hcp); simpl; lia.
Defined.

(** The theorem for X7 at [ex_t], [ex_cp], [K = 2] and a chunk size of
    three. *)
Lemma calculate_distances_row_independent_witness :
  valid_input ex_t ex_cp 3 ∧
  ∃ ids ds,
    calculate_distances cityblock (argpartition_select Z.le) ex_t ex_cp (Some 2) 3
    = Ok (ids, ds) ∧
    ∀ i t, rows ex_t !! i = Some t →
      ∃ ids_i ds_i,
        rows ids !! i = Some ids_i ∧ rows ds !! i = Some ds_i ∧
        calculate_distances cityblock (argpartition_select Z.le)
          (NDArray 1 (shape1 ex_t) [t]) ex_cp (Some 2) 3
        = Ok (NDArray 1 (shape1 ids) [ids_i], NDArray 1 (shape1 ds) [ds_i]).
Proof.
  split; [solve_valid|].
  apply (calculate_distances_row_independent cityblock
           (argpartition_select Z.le) Z.le
           (argpartition_select_contract Z.le));
    [solve_valid|simpl; lia].
Defined.

(** The theorem for X8 with the selection with swaps and the sorting
    selection, on the pool with a tie. *)
Lemma calculate_distances_selection_independent_witness :
  valid_input origin_t tied_cp 3 ∧
  ∃ ids1 ds1 ids2 ds2,
    calculate_distances cityblock (argpartition_select Z.le)
      origin_t tied_cp (Some 2) 3 = Ok (ids1, ds1) ∧
    calculate_distances cityblock (argpartition_sort Z.le)
      origin_t tied_cp (Some 2) 3 = Ok (ids2, ds2) ∧
    ∀ i t, rows origin_t !! i = Some t →
      ∃ ids1_i ds1_i ids2_i ds2_i,
        rows ids1 !! i = Some ids1_i ∧ rows ds1 !! i = Some ds1_i ∧
        rows ids2 !! i = Some ids2_i ∧ rows ds2 !! i = Some ds2_i ∧
        ds1_i ≡ₚ ds2_i ∧
        (NoDup (cityblock t <$> rows tied_cp) →
         zip ids1_i ds1_i ≡ₚ zip ids2_i ds2_i).
Proof.
  split; [solve_valid|].
  apply (calculate_distances_selection_independent cityblock
           (argpartition_select Z.le) (argpartition_sort Z.le) Z.le
           (argpartition_select_contract Z.le)
           (argpartition_sort_contract Z.le));
    [solve_valid|simpl; lia].
Defined.

(** The theorem for X9 on the two buffers of [ex_t] and [ex_cp], three
    columns wide, with three matches to keep. *)
Lemma final_select_keeps_witness :
  wf_ndarray ex_ids_buffer ∧ wf_ndarray ex_dist_buffer ∧
  final_select (argpartition_select Z.le) 3 (ex_ids_buffer, ex_dist_buffer)
  = Ok (ex_ids_buffer, ex_dist_buffer).
Proof.
  assert (wf_ndarray ex_ids_buffer) as Hi by solve_valid.
  assert (wf_ndarray ex_dist_buffer) as Hd by solve_valid.
  split_and!; [done..|].
  apply (final_select_keeps (argpartition_select Z.le)
           ex_ids_buffer ex_dist_buffer 3 Hi Hd); simpl; lia.
Defined.

(** The theorem for X10 at [ex_t], [ex_cp], [K = 2] and a chunk size of
    three. *)
Lemma accumulate_aligned_witness :
  valid_input ex_t ex_cp 3 ∧
  ∃ ids dist,
    accumulate cityblock (argpartition_select Z.le) ex_t ex_cp (Some 2) 3
    = Ok (ids, dist) ∧
    shape0 ids = shape0 dist ∧ shape1 ids = shape1 dist ∧
    shape1 dist ≤ shape0 ex_cp ∧
    ∀ i t, rows ex_t !! i = Some t →
      ∃ ids_i dist_i,
        rows ids !! i = Some ids_i ∧ rows dist !! i = Some dist_i ∧
        length ids_i = shape1 ids ∧ length dist_i = shape1 dist ∧
        NoDup ids_i ∧
        ∀ j idx d, ids_i !! j = Some idx → dist_i !! j = Some d →
          ∃ x, rows ex_cp !! idx = Some x ∧ d = cityblock t x.
Proof.
  split; [solve_valid|].
  apply (accumulate_aligned cityblock (argpartition_select Z.le) Z.le
           (argpartition_select_contract Z.le));
    [solve_valid|simpl; lia].
Defined.

(** The theorem for X11 at [ex_t] and [ex_cp] with one and three matches
    and a chunk size of two. *)
Lemma calculate_distances_more_matches_witness :
  valid_input ex_t ex_cp 2 ∧
  ∃ ids ds ids' ds',
    calculate_distances cityblock (argpartition_select Z.le) ex_t ex_cp (Some 1) 2
    = Ok (ids, ds) ∧
    calculate_distances cityblock (argpartition_select Z.le) ex_t ex_cp (Some 3) 2
    = Ok (ids', ds') ∧
    ∀ i t, rows ex_t !! i = Some t →
      ∃ ds_i ds'_i,
        rows ds !! i = Some ds_i ∧ rows ds' !! i = Some ds'_i ∧
        ds_i ⊆+ ds'_i.
Proof.
  split; [solve_valid|].
  apply (calculate_distances_more_matches cityblock (argpartition_select Z.le)
           Z.le (argpartition_select_contract Z.le));
    [solve_valid|simpl; lia..].
Defined.
